(** * clean.py: correction of misaligned NER character offsets

    A shallow embedding of [src/clean.py] (boundary relocation, parenthesis
    repair, deduplication and label noise stripping) together with the
    properties of its specification.  The variant [src/src/clean.py] has the
    same [fix_borders] and [deduplicate], and no [remove_ner_noise].

    Conventions of the embedding:
    - a Python [str] is the list of its Unicode code points;
    - Python integers are unbounded, hence [Z];
    - an entity [[start, end, label]] is a triple;
    - a call either returns, raises, or is still running when the fuel given
      to the only [while] loop of the program is used up ([outcome]);
    - [print_and_log] only writes to the console and to the log file and has
      no influence on any returned value: it is left out. *)

From Stdlib Require Import ZArith NArith List Bool Lia String Ascii.
From Stdlib Require Import Permutation Sorted.
Import ListNotations.
Local Open Scope Z_scope.

(* ================================================================== *)
(** * Python data *)
(* ================================================================== *)

(** A character is a Unicode code point. *)
Definition char := N.
Definition pystr := list char.

(** Literals: an ASCII string constant read as a Python string. *)
Definition py (s : string) : pystr := map N_of_ascii (list_ascii_of_string s).

Definition SPACE : char := 32%N.
Definition PERIOD : char := 46%N.
Definition LPAREN : char := 40%N.
Definition RPAREN : char := 41%N.
Definition HYPHEN : char := 45%N.
Definition NEWLINE : char := 10%N.

Definition char_eqb (a b : char) : bool := N.eqb a b.

(** An entity as it comes out of the JSON input: [[start, end, label]]. *)
Definition ent : Type := Z * Z * pystr.

Definition ent_start (e : ent) : Z := fst (fst e).
Definition ent_end (e : ent) : Z := snd (fst e).
Definition ent_label (e : ent) : pystr := snd e.

(* ================================================================== *)
(** * Outcomes of a call *)
(* ================================================================== *)

Inductive exn : Type :=
| IndexError
| AssertionError.

Inductive outcome (A : Type) : Type :=
| Ret (a : A)
| Raise (e : exn)
| NoFuel.

Arguments Ret {A} a.
Arguments Raise {A} e.
Arguments NoFuel {A}.

Definition bind {A B : Type} (m : outcome A) (k : A -> outcome B) : outcome B :=
  match m with
  | Ret a => k a
  | Raise e => Raise e
  | NoFuel => NoFuel
  end.

Notation "x <- m ;; k" := (bind m (fun x => k))
  (at level 61, m at next level, right associativity).

(* ================================================================== *)
(** * Python string primitives *)
(* ================================================================== *)

Definition len (s : pystr) : Z := Z.of_nat (List.length s).

(** [s[i]]: a negative index counts from the end, an index outside of
    [-len(s) .. len(s)-1] raises [IndexError]. *)
Definition index (s : pystr) (i : Z) : outcome char :=
  let j := if i <? 0 then i + len s else i in
  if (0 <=? j) && (j <? len s) then
    match nth_error s (Z.to_nat j) with
    | Some c => Ret c
    | None => Raise IndexError
    end
  else Raise IndexError.

(** The bound of a slice: negative bounds count from the end, and every
    bound is clipped to [0 .. len(s)]. *)
Definition clip (s : pystr) (i : Z) : Z :=
  if i <? 0 then Z.max (i + len s) 0 else Z.min i (len s).

(** [s[a:b]] and [s[a:]]; slices never raise. *)
Definition slice (s : pystr) (a b : Z) : pystr :=
  let lo := clip s a in
  let hi := clip s b in
  firstn (Z.to_nat (hi - lo)) (skipn (Z.to_nat lo) s).

Definition slice_from (s : pystr) (a : Z) : pystr :=
  skipn (Z.to_nat (clip s a)) s.

(** [s.count(c)] for a one-character [c]. *)
Fixpoint count (s : pystr) (c : char) : Z :=
  match s with
  | [] => 0
  | x :: r => (if char_eqb x c then 1 else 0) + count r c
  end.

(** [s.startswith(c)] and [s.endswith(c)] for a one-character [c]. *)
Definition startswith (s : pystr) (c : char) : bool :=
  match s with
  | x :: _ => char_eqb x c
  | [] => false
  end.

Definition endswith (s : pystr) (c : char) : bool :=
  match rev s with
  | x :: _ => char_eqb x c
  | [] => false
  end.

(* ================================================================== *)
(** * The regular expressions of the program *)
(* ================================================================== *)

(** Where [$] matches without [re.M]: at the end of the string and just
    before a newline that is the last character. *)
Definition at_dollar (s : pystr) : bool :=
  match s with
  | [] => true
  | [c] => char_eqb c NEWLINE
  | _ => false
  end.

Fixpoint skip_spaces (s : pystr) : pystr :=
  match s with
  | c :: r => if char_eqb c SPACE then skip_spaces r else s
  | [] => []
  end.

(** [re.compile(r'^\. *$', re.U).match(s)]: a period, then spaces only.
    The greedy run of spaces is the only one after which [$] can match. *)
Definition match_period_end (s : pystr) : bool :=
  match s with
  | c :: r => char_eqb c PERIOD && at_dollar (skip_spaces r)
  | [] => false
  end.

Definition is_digit (c : char) : bool := (48 <=? c)%N && (c <=? 57)%N.

Fixpoint skip_digits (s : pystr) : pystr :=
  match s with
  | c :: r => if is_digit c then skip_digits r else s
  | [] => []
  end.

(** [re.sub(r"-[0-9]*$", "", s)]: the string is scanned from the left; at
    the first hyphen whose greedy run of digits is followed by [$] the match
    is deleted.  What is left after a match is empty or a single newline, in
    which the pattern cannot match again, so it is copied as it is. *)
Fixpoint sub_noise (s : pystr) : pystr :=
  match s with
  | [] => []
  | c :: r =>
      if char_eqb c HYPHEN && at_dollar (skip_digits r)
      then skip_digits r
      else c :: sub_noise r
  end.

(** The ASCII part of the Unicode word class [[\w\d]]: letters, digits and
    the underscore. *)
Definition ascii_word (c : char) : bool :=
  ((48 <=? c) && (c <=? 57) || (65 <=? c) && (c <=? 90) ||
   (97 <=? c) && (c <=? 122) || (c =? 95))%N.

(** [str.isspace]: the Unicode white space characters. *)
Definition is_whitespace (c : char) : bool :=
  ((9 <=? c) && (c <=? 13) || (28 <=? c) && (c <=? 32) ||
   (c =? 133) || (c =? 160) || (c =? 5760) ||
   (8192 <=? c) && (c <=? 8202) || (c =? 8232) || (c =? 8233) ||
   (c =? 8239) || (c =? 8287) || (c =? 12288))%N.

(* ================================================================== *)
(** * remove_ner_noise *)
(* ================================================================== *)

Definition remove_ner_noise (ent_list : list ent) : list ent :=
  map (fun e => (ent_start e, ent_end e, sub_noise (ent_label e))) ent_list.

(* ================================================================== *)
(** * fix_borders *)
(* ================================================================== *)

Section FixBorders.

(** The Unicode table behind [[\w\d]] belongs to Python's [re] module, not
    to this program: the functions take it as a parameter. *)
Variable word_class : char -> bool.

(** [is_char] and [is_not_char] are applied to one-character strings. *)
Definition is_char (s : char) : bool := word_class s.
Definition is_not_char (s : char) : bool := negb (is_char s).

(** The two lambdas bound to [is_border]. *)
Definition is_border (i_is_start : bool) (a b : char) : bool :=
  if i_is_start
  then is_not_char a && is_char b
  else is_char a && is_not_char b.

(** The condition of the [if] inside the loop, on the padded text. *)
Definition probe (text : pystr) (i_is_start : bool) (i_current : Z)
  : outcome bool :=
  let i_a := i_current - 1 in
  let i_b := i_current in
  if (0 <=? i_a) && (i_b <? len text) then
    a <- index text i_a ;;
    b <- index text i_b ;;
    Ret (is_border i_is_start a b)
  else Ret false.

(** The [while not found] loop; one unit of fuel per evaluation of the
    loop body, that is per probed position. *)
Fixpoint search (fuel : nat) (text : pystr) (i_is_start : bool)
         (i_current i_step : Z) : outcome Z :=
  match fuel with
  | O => NoFuel
  | S fuel' =>
      found <- probe text i_is_start i_current ;;
      if found then Ret i_current
      else
        let i_current := i_current + i_step in
        let i_step := if 0 <? i_step then i_step + 1 else i_step - 1 in
        let i_step := i_step * -1 in
        search fuel' text i_is_start i_current i_step
  end.

Definition pad (text : pystr) : pystr := SPACE :: text ++ [SPACE].

(** The condition of the abbreviation rule, on the padded text. *)
Definition abbreviation_period (text : pystr) (i_corrected : Z)
  : outcome bool :=
  c <- index text i_corrected ;;
  Ret (char_eqb c PERIOD
       && negb (match_period_end (slice_from text i_corrected))).

Definition fix_char_index (fuel : nat) (text : pystr) (i : Z)
           (i_is_start : bool) : outcome Z :=
  let text := pad text in
  let i := i + 1 in
  let i_step := if i_is_start then -1 else 1 in
  i_corrected <- search fuel text i_is_start i i_step ;;
  abbreviation <- abbreviation_period text i_corrected ;;
  let i_corrected := if abbreviation then i_corrected + 1 else i_corrected in
  Ret (i_corrected - 1).

End FixBorders.

(** The two conditions of [fix_parenthesis], each with its guard. *)
Definition left_parenthesis (text : pystr) (i_a i_b : Z) : outcome bool :=
  let text_sub := slice text i_a i_b in
  if 0 <? i_a then
    c <- index text (i_a - 1) ;;
    Ret (char_eqb c LPAREN && (count text_sub LPAREN <? count text_sub RPAREN))
  else Ret false.

Definition right_parenthesis (text : pystr) (i_a i_b : Z) : outcome bool :=
  let text_sub := slice text i_a i_b in
  if i_b <? len text - 1 then
    c <- index text i_b ;;
    Ret (char_eqb c RPAREN && (count text_sub RPAREN <? count text_sub LPAREN))
  else Ret false.

Definition fix_parenthesis (e : ent) (text : pystr) : outcome ent :=
  let i_a := ent_start e in
  let i_b := ent_end e in
  let ent_new := e in
  l <- left_parenthesis text i_a i_b ;;
  let ent_new := if l then (i_a - 1, i_b, ent_label e) else ent_new in
  r <- right_parenthesis text i_a i_b ;;
  let ent_new := if r then (i_a, i_b + 1, ent_label e) else ent_new in
  Ret ent_new.

(** The [assert] of [fix_borders_main]. *)
Definition assert_no_space (text : pystr) (ent_new : ent) : outcome unit :=
  let sub := slice text (ent_start ent_new) (ent_end ent_new) in
  if negb (startswith sub SPACE || endswith sub SPACE)
  then Ret tt
  else Raise AssertionError.

Section FixBordersMain.

Variable word_class : char -> bool.

Definition fix_ent (fuel : nat) (text : pystr) (e : ent) : outcome ent :=
  i_a <- fix_char_index word_class fuel text (ent_start e) true ;;
  i_b <- fix_char_index word_class fuel text (ent_end e) false ;;
  let ent_new := (i_a, i_b, ent_label e) in
  ent_new <- fix_parenthesis ent_new text ;;
  _ <- assert_no_space text ent_new ;;
  Ret ent_new.

Fixpoint fix_borders_main (fuel : nat) (ent_list : list ent) (text : pystr)
  : outcome (list ent) :=
  match ent_list with
  | [] => Ret []
  | e :: rest =>
      ent_new <- fix_ent fuel text e ;;
      ent_list_new <- fix_borders_main fuel rest text ;;
      Ret (ent_new :: ent_list_new)
  end.

Definition fix_borders (fuel : nat) (ent_list : list ent) (text : pystr)
  : outcome (list ent) :=
  fix_borders_main fuel ent_list text.

End FixBordersMain.

(** A classifier for ASCII texts: the word class restricted to ASCII.  On an
    ASCII text it gives the runs of Python's class
    ([fix_borders_ascii_text]). *)
Definition ascii_class (c : char) : bool := (c <? 128)%N && ascii_word c.


(* ================================================================== *)
(** * deduplicate *)
(* ================================================================== *)

(** [a <= b] on strings: lexicographic on the code points. *)
Fixpoint str_leb (a b : pystr) : bool :=
  match a, b with
  | [], _ => true
  | _ :: _, [] => false
  | x :: a', y :: b' =>
      if (x <? y)%N then true
      else if (y <? x)%N then false
      else str_leb a' b'
  end.

Section Sort.

Variable K : Type.
Variable leb : K -> K -> bool.
Variable key : ent -> K.

(** [list.sort(key=...)] is a stable sort, and the result of a stable sort
    does not depend on the algorithm: it is modelled by the insertion sort
    that puts an element in front of the elements of the same key that
    followed it. *)
Fixpoint insert_stable (x : ent) (l : list ent) : list ent :=
  match l with
  | [] => [x]
  | y :: l' =>
      if leb (key x) (key y) then x :: l else y :: insert_stable x l'
  end.

Fixpoint list_sort (l : list ent) : list ent :=
  match l with
  | [] => []
  | x :: l' => insert_stable x (list_sort l')
  end.

End Sort.

Section Deduplicate.

(** [list(set(...))]: the order in which a set yields its elements is decided
    by the hashes of the elements and by the history of the set.  It is a
    parameter: some enumeration, without repetition, of the elements of the
    list the set was built from. *)
Variable set_iteration : list ent -> list ent.

Definition deduplicate (ent_list : list ent) : list ent :=
  let ent_list_new := set_iteration ent_list in
  let ent_list_new := list_sort pystr str_leb ent_label ent_list_new in
  let ent_list_new := list_sort Z Z.leb ent_end ent_list_new in
  let ent_list_new := list_sort Z Z.leb ent_start ent_list_new in
  ent_list_new.

End Deduplicate.

(** A set that yields its distinct elements last seen first: one of the
    orders a run may meet. *)
Definition ent_eq_dec (x y : ent) : {x = y} + {x <> y}.
Proof. repeat decide equality. Defined.

Definition reversed_set (l : list ent) : list ent := rev (nodup ent_eq_dec l).

(* ================================================================== *)
(** * Notions of the specification *)
(* ================================================================== *)

(** A text contains at least one word character. *)
Definition has_word (word_class : char -> bool) (text : pystr) : bool :=
  existsb word_class text.

(** The character of [s] at the position [i], for [0 <= i < len s]. *)
Definition char_at (s : pystr) (i : Z) : char := nth (Z.to_nat i) s SPACE.

(** The position [p] of the padded text is a border of the given mode. *)
Definition border (word_class : char -> bool) (text : pystr)
           (i_is_start : bool) (p : Z) : bool :=
  (0 <=? p - 1) && (p <? len text)
  && is_border word_class i_is_start (char_at text (p - 1)) (char_at text p).

(** The period at the position [p] is not followed by spaces only. *)
Definition abbreviation (text : pystr) (p : Z) : bool :=
  char_eqb (char_at text p) PERIOD
  && negb (match_period_end (slice_from text p)).





(** A label ends in two groups of a hyphen and digits in a row; since [$]
    also matches before a final newline, one newline may follow the groups
    or stand between them. *)
Definition ends_in_two_groups (s : pystr) : Prop :=
  exists p d1 t1 d2 t2,
    s = p ++ HYPHEN :: d1 ++ t1 ++ HYPHEN :: d2 ++ t2
    /\ forallb is_digit d1 = true
    /\ forallb is_digit d2 = true
    /\ (t1 ++ t2 = [] \/ t1 ++ t2 = [NEWLINE]).

(** The offset [b] is a border of the mode, and no offset nearer to [i] is
    one. *)
Definition nearest_border (word_class : char -> bool) (text : pystr)
           (i_is_start : bool) (i b : Z) : Prop :=
  probe word_class (pad text) i_is_start (b + 1) = Ret true
  /\ forall j, Z.abs (j - i) < Z.abs (b - i) ->
       probe word_class (pad text) i_is_start (j + 1) = Ret false.

(** The span [e'] is the span [e] with its offsets moved to borders inside
    the text: the start to a nearest START border, or one position before
    it (an added ["("]); the end to a nearest END border, or up to two
    positions after it (an abbreviation period, an added [")"]). *)
Definition relocated (word_class : char -> bool) (text : pystr)
           (e e' : ent) : Prop :=
  ent_label e' = ent_label e
  /\ 0 <= ent_start e' <= len text - 1
  /\ 1 <= ent_end e' <= len text
  /\ exists b_a b_b,
       nearest_border word_class text true (ent_start e) b_a
       /\ nearest_border word_class text false (ent_end e) b_b
       /\ (ent_start e' = b_a \/ ent_start e' = b_a - 1)
       /\ b_b <= ent_end e' <= b_b + 2.

(** The order of the specification on entities: start, then end, then
    label, each ascending. *)
Definition str_lt (a b : pystr) : Prop := str_leb a b = true /\ a <> b.

Definition ent_lt (x y : ent) : Prop :=
  ent_start x < ent_start y
  \/ (ent_start x = ent_start y
      /\ (ent_end x < ent_end y
          \/ (ent_end x = ent_end y /\ str_lt (ent_label x) (ent_label y)))).

(** The order three stable sorts build, before it is known that the
    elements are distinct. *)
Definition by_key {K : Type} (leb : K -> K -> bool) (key : ent -> K)
           (R : ent -> ent -> Prop) (x y : ent) : Prop :=
  leb (key x) (key y) = true /\ (leb (key y) (key x) = true -> R x y).

Definition ent_le : ent -> ent -> Prop :=
  by_key Z.leb ent_start
    (by_key Z.leb ent_end (by_key str_leb ent_label (fun _ _ => True))).

(** The first and the last character of a string are white space. *)
Definition begins_with_whitespace (s : pystr) : bool :=
  match s with
  | c :: _ => is_whitespace c
  | [] => false
  end.

Definition ends_with_whitespace (s : pystr) : bool :=
  begins_with_whitespace (rev s).

(** What [fix_borders] establishes for an entity [e'] it returns for [e]:
    the label is kept, both offsets lie inside the text, the first character
    is a word character or an added parenthesis, and the last one a word
    character, an abbreviation period or an added parenthesis. *)
Definition corrected (word_class : char -> bool) (text : pystr)
           (e e' : ent) : Prop :=
  ent_label e' = ent_label e
  /\ 0 <= ent_start e' <= len text - 1
  /\ 1 <= ent_end e' <= len text
  /\ (word_class (char_at text (ent_start e')) = true
      \/ char_at text (ent_start e') = LPAREN)
  /\ (word_class (char_at text (ent_end e' - 1)) = true
      \/ char_at text (ent_end e' - 1) = PERIOD
      \/ char_at text (ent_end e' - 1) = RPAREN).

(** A run that no amount of fuel brings to an end. *)
Definition diverges {A : Type} (run : nat -> outcome A) : Prop :=
  forall fuel, run fuel = NoFuel.

(** An enumeration of the elements of a list that a set may follow. *)
Definition enumerates (set_iteration : list ent -> list ent) : Prop :=
  forall l, NoDup (set_iteration l)
            /\ forall e, In e (set_iteration l) <-> In e l.

(* ================================================================== *)
(** * main *)
(* ================================================================== *)

(** The two keys that [main] reads in a record of the input. *)
Inductive key : Type :=
| Key_text_raw
| Key_entities.

(** A record of the input, as [json.load] gives it: a [dict] in which either
    key may be missing.  The values that are present have the shape the
    program expects: the text is a string and every entity is a triple
    [[start, end, label]].  An entity with fewer than three items, on which
    [ent[2]] raises [IndexError], is not a value of this type. *)
Record record : Type := {
  get_text_raw : option pystr;
  get_entities : option (list ent)
}.

(** A record that [main] builds: [{"text_raw": text, "entities": ent_list}]. *)
Record gd : Type := {
  text_raw : pystr;
  entities : list ent
}.

(** The end of a run of [main]: besides what a call may do, a lookup may
    raise [KeyError]. *)
Inductive run (A : Type) : Type :=
| Done (a : A)
| KeyError (k : key)
| Failed (e : exn)
| Unfinished.

Arguments Done {A} a.
Arguments KeyError {A} k.
Arguments Failed {A} e.
Arguments Unfinished {A}.

Definition run_bind {A B : Type} (m : run A) (k : A -> run B) : run B :=
  match m with
  | Done a => k a
  | KeyError x => KeyError x
  | Failed e => Failed e
  | Unfinished => Unfinished
  end.

Notation "x <~ m ;; k" := (run_bind m (fun x => k))
  (at level 61, m at next level, right associativity).

Definition of_outcome {A : Type} (o : outcome A) : run A :=
  match o with
  | Ret a => Done a
  | Raise e => Failed e
  | NoFuel => Unfinished
  end.

(** [gd["text_raw"]] and [gd["entities"]]. *)
Definition getitem_text_raw (r : record) : run pystr :=
  match get_text_raw r with
  | Some text => Done text
  | None => KeyError Key_text_raw
  end.

Definition getitem_entities (r : record) : run (list ent) :=
  match get_entities r with
  | Some ent_list => Done ent_list
  | None => KeyError Key_entities
  end.

Section Main.

Variable word_class : char -> bool.
Variable set_iteration : list ent -> list ent.

(** The body of the first loop of [main] in [src/clean.py]: the record to
    append, or [None] for a record that is dropped. *)
Definition clean_record (fuel : nat) (r : record) : run (option gd) :=
  text <~ getitem_text_raw r ;;
  ent_list <~ getitem_entities r ;;
  match ent_list with
  | _ :: _ =>
      ent_list <~ of_outcome (fix_borders word_class fuel ent_list text) ;;
      let ent_list := deduplicate set_iteration ent_list in
      Done (Some {| text_raw := text; entities := ent_list |})
  | [] => Done None
  end.

Fixpoint clean_records (fuel : nat) (gd_list : list record) : run (list gd) :=
  match gd_list with
  | [] => Done []
  | r :: rest =>
      cleaned <~ clean_record fuel r ;;
      gd_list_cleaned <~ clean_records fuel rest ;;
      Done (match cleaned with
            | Some g => g :: gd_list_cleaned
            | None => gd_list_cleaned
            end)
  end.

(** The body of the second loop. *)
Definition simplify_gd (g : gd) : gd :=
  let text := text_raw g in
  let ent_list := entities g in
  let ent_list := remove_ner_noise ent_list in
  let ent_list := deduplicate set_iteration ent_list in
  {| text_raw := text; entities := ent_list |}.

(** [main] of [src/clean.py], from the records of the input file to the
    contents of the two output files.  The first file is written before the
    second loop starts, and the second loop reads the records that the first
    one built: it finds both keys and calls nothing that may fail. *)
Definition main (fuel : nat) (gd_list : list record) : run (list gd * list gd) :=
  gd_list_cleaned <~ clean_records fuel gd_list ;;
  let gd_list_cleaned_simplified := map simplify_gd gd_list_cleaned in
  Done (gd_list_cleaned, gd_list_cleaned_simplified).

(** The loop over the records of one file in [main] of [src/src/clean.py]:
    no record is dropped. *)
Fixpoint clean_file (fuel : nat) (gd_list : list record) : run (list gd) :=
  match gd_list with
  | [] => Done []
  | r :: rest =>
      text <~ getitem_text_raw r ;;
      ent_list <~ getitem_entities r ;;
      ent_list <~ of_outcome (fix_borders word_class fuel ent_list text) ;;
      let ent_list := deduplicate set_iteration ent_list in
      gd_list_new <~ clean_file fuel rest ;;
      Done ({| text_raw := text; entities := ent_list |} :: gd_list_new)
  end.

(** [main] of [src/src/clean.py], from the files of the input folder, in the
    order of [os.listdir], to the files written and the end of the run: a
    file that was written stays when a later one fails. *)
Fixpoint main_folder (fuel : nat) (files : list (string * list record))
  : list (string * list gd) * run unit :=
  match files with
  | [] => ([], Done tt)
  | (file_name, gd_list) :: rest =>
      match clean_file fuel gd_list with
      | Done gd_list_new =>
          let (written, status) := main_folder fuel rest in
          ((file_name, gd_list_new) :: written, status)
      | KeyError k => ([], KeyError k)
      | Failed e => ([], Failed e)
      | Unfinished => ([], Unfinished)
      end
  end.

End Main.

(** The records of the input that [main] of [src/clean.py] keeps, and the
    records built that hold an entity. *)
Definition has_entities (r : record) : bool :=
  match get_entities r with
  | Some (_ :: _) => true
  | _ => false
  end.

Definition nonempty (g : gd) : bool :=
  match entities g with
  | _ :: _ => true
  | [] => false
  end.

(** A record lacks a key. *)
Definition lacks (k : key) (r : record) : Prop :=
  match k with
  | Key_text_raw => get_text_raw r = None
  | Key_entities => get_entities r = None
  end.

(** A record has both keys; its text holds a word character when it holds
    an entity. *)
Definition keyed (r : record) : Prop :=
  get_text_raw r <> None /\ get_entities r <> None.

Definition cleanable (word_class : char -> bool) (r : record) : Prop :=
  match get_text_raw r, get_entities r with
  | Some text, Some (_ :: _) => has_word word_class text = true
  | _, _ => True
  end.

(** The entities of a record built: at least one, in strictly ascending
    order, with offsets inside the text. *)
Definition inside (text : pystr) (e : ent) : Prop :=
  0 <= ent_start e <= len text - 1 /\ 1 <= ent_end e <= len text.

Definition normalized (g : gd) : Prop :=
  entities g <> []
  /\ StronglySorted ent_lt (entities g)
  /\ Forall (inside (text_raw g)) (entities g).

(** An input for runs of [main]: a record with three entities, two of which
    the cleaning brings to the same span, and a record without entities; what
    [main] of [src/clean.py] writes for it, and what the loop of
    [src/src/clean.py] gives. *)
Definition sample_text : pystr := py "Bad Ischl liegt".

Definition sample_records : list record :=
  [ {| get_text_raw := Some sample_text;
       get_entities := Some [(5, 8, py "LOC-7"); (4, 9, py "LOC");
                             (0, 3, py "LOC")] |};
    {| get_text_raw := Some (py "x"); get_entities := Some [] |} ].

Definition sample_cleaned : list gd :=
  [ {| text_raw := sample_text;
       entities := [(0, 3, py "LOC"); (4, 9, py "LOC"); (4, 9, py "LOC-7")] |} ].

Definition sample_simplified : list gd :=
  [ {| text_raw := sample_text;
       entities := [(0, 3, py "LOC"); (4, 9, py "LOC")] |} ].

Definition sample_file : list gd :=
  sample_cleaned ++ [ {| text_raw := py "x"; entities := [] |} ].

(** The positions [q] that the loop has probed when it is at [c] with the
    step [st]: [c] and the positions towards [c + st], which is next. *)
Definition probed (c st q : Z) : Prop :=
  (0 < st /\ c <= q < c + st) \/ (st < 0 /\ c + st < q <= c).

(** The loop of [fix_char_index] started at [i] in the direction [st0] is at
    [c] with the step [st]. *)
Definition on_track (st0 i c st : Z) : Prop :=
  (st0 = -1 /\ ((st < 0 /\ 2 * c + st + 1 = 2 * i)
                \/ (0 < st /\ 2 * c + st = 2 * i)))
  \/ (st0 = 1 /\ ((0 < st /\ 2 * c + st - 1 = 2 * i)
                  \/ (st < 0 /\ 2 * c + st = 2 * i))).

(* ================================================================== *)
(** * Strings: indexing and slicing inside the bounds *)
(* ================================================================== *)

Lemma len_nonneg (s : pystr) : 0 <= len s.
Proof. unfold len. lia. Qed.

Lemma len_app (s t : pystr) : len (s ++ t) = len s + len t.
Proof. unfold len. rewrite length_app. lia. Qed.

Lemma len_pad (text : pystr) : len (pad text) = len text + 2.
Proof. unfold pad, len. cbn [List.length]. rewrite length_app. cbn. lia. Qed.

Lemma index_char_at (s : pystr) (i : Z) :
  0 <= i < len s -> index s i = Ret (char_at s i).
Proof.
  intros Hi. unfold index, char_at.
  destruct (i <? 0) eqn:Hneg; [apply Z.ltb_lt in Hneg; lia|].
  replace ((0 <=? i) && (i <? len s)) with true
    by (symmetry; apply andb_true_iff; split;
        [apply Z.leb_le | apply Z.ltb_lt]; lia).
  destruct (nth_error s (Z.to_nat i)) as [c|] eqn:Hn.
  - now rewrite (nth_error_nth _ _ SPACE Hn).
  - apply nth_error_None in Hn. unfold len in Hi. lia.
Qed.

Lemma char_at_cons (c : char) (s : pystr) (i : Z) :
  1 <= i -> char_at (c :: s) i = char_at s (i - 1).
Proof.
  intros Hi. unfold char_at.
  replace (Z.to_nat i) with (S (Z.to_nat (i - 1))) by lia. reflexivity.
Qed.

Lemma char_at_pad (text : pystr) (i : Z) :
  1 <= i <= len text -> char_at (pad text) i = char_at text (i - 1).
Proof.
  intros Hi. unfold pad. rewrite char_at_cons by lia.
  unfold char_at. apply app_nth1. unfold len in Hi. lia.
Qed.

Lemma char_at_pad_first (text : pystr) : char_at (pad text) 0 = SPACE.
Proof. reflexivity. Qed.

Lemma char_at_pad_last (text : pystr) :
  char_at (pad text) (len text + 1) = SPACE.
Proof.
  unfold pad. rewrite char_at_cons by (pose proof (len_nonneg text); lia).
  unfold char_at, len.
  replace (Z.to_nat (Z.of_nat (List.length text) + 1 - 1))
    with (List.length text) by lia.
  now rewrite nth_middle.
Qed.

Lemma char_at_In (s : pystr) (i : Z) : 0 <= i < len s -> In (char_at s i) s.
Proof. intros Hi. apply nth_In. unfold len in Hi. lia. Qed.

Lemma clip_inside (s : pystr) (i : Z) : 0 <= i <= len s -> clip s i = i.
Proof.
  intros Hi. unfold clip.
  destruct (i <? 0) eqn:Hneg; [apply Z.ltb_lt in Hneg|]; lia.
Qed.

Lemma slice_empty (s : pystr) (a b : Z) :
  0 <= a <= len s -> 0 <= b <= len s -> b <= a -> slice s a b = [].
Proof.
  intros Ha Hb Hba. unfold slice. rewrite !clip_inside by assumption.
  replace (Z.to_nat (b - a)) with 0%nat by lia. reflexivity.
Qed.

Lemma slice_length (s : pystr) (a b : Z) :
  0 <= a -> a <= b -> b <= len s ->
  List.length (slice s a b) = Z.to_nat (b - a).
Proof.
  intros Ha Hab Hb. unfold slice. rewrite !clip_inside by lia.
  rewrite length_firstn, length_skipn. unfold len in Hb. lia.
Qed.

Lemma slice_nth (s : pystr) (a b : Z) (k : nat) :
  0 <= a -> a <= b -> b <= len s -> (k < Z.to_nat (b - a))%nat ->
  nth k (slice s a b) SPACE = char_at s (a + Z.of_nat k).
Proof.
  intros Ha Hab Hb Hk. unfold slice, char_at. rewrite !clip_inside by lia.
  rewrite nth_firstn.
  replace (k <? Z.to_nat (b - a))%nat with true
    by (symmetry; apply Nat.ltb_lt; assumption).
  rewrite nth_skipn. f_equal. lia.
Qed.

Lemma startswith_slice (s : pystr) (a b : Z) (c : char) :
  0 <= a -> a < b -> b <= len s ->
  startswith (slice s a b) c = char_eqb (char_at s a) c.
Proof.
  intros Ha Hab Hb.
  pose proof (slice_length s a b Ha (Z.lt_le_incl _ _ Hab) Hb) as Hlen.
  pose proof (slice_nth s a b 0 Ha (Z.lt_le_incl _ _ Hab) Hb) as Hnth.
  destruct (slice s a b) as [|x r]; cbn in *; [lia|].
  rewrite Hnth by lia. now rewrite Z.add_0_r.
Qed.

Lemma begins_with_whitespace_slice (s : pystr) (a b : Z) :
  0 <= a -> a < b -> b <= len s ->
  begins_with_whitespace (slice s a b) = is_whitespace (char_at s a).
Proof.
  intros Ha Hab Hb.
  pose proof (slice_length s a b Ha (Z.lt_le_incl _ _ Hab) Hb) as Hlen.
  pose proof (slice_nth s a b 0 Ha (Z.lt_le_incl _ _ Hab) Hb) as Hnth.
  destruct (slice s a b) as [|x r]; cbn in *; [lia|].
  rewrite Hnth by lia. now rewrite Z.add_0_r.
Qed.

Lemma rev_head (s : pystr) :
  s <> [] -> exists r, rev s = nth (List.length s - 1) s SPACE :: r.
Proof.
  intros Hs. destruct (rev s) as [|x r] eqn:Hr.
  - apply (f_equal (@List.length char)) in Hr. rewrite length_rev in Hr.
    destruct s; [congruence | discriminate].
  - exists r. f_equal.
    assert (Hl : (0 < List.length s)%nat)
      by (destruct s; [congruence | cbn; lia]).
    rewrite <- (rev_involutive s) at 2. rewrite rev_nth.
    + rewrite length_rev.
      replace (List.length s - S (List.length s - 1))%nat with 0%nat by lia.
      now rewrite Hr.
    + rewrite length_rev. lia.
Qed.

Lemma slice_rev_head (s : pystr) (a b : Z) :
  0 <= a -> a < b -> b <= len s ->
  exists r, rev (slice s a b) = char_at s (b - 1) :: r.
Proof.
  intros Ha Hab Hb.
  pose proof (slice_length s a b Ha (Z.lt_le_incl _ _ Hab) Hb) as Hlen.
  destruct (rev_head (slice s a b)) as [r Hr].
  - intros E. rewrite E in Hlen. cbn in Hlen. lia.
  - exists r. rewrite Hr. f_equal. rewrite slice_nth by lia.
    f_equal. lia.
Qed.

Lemma endswith_slice (s : pystr) (a b : Z) (c : char) :
  0 <= a -> a < b -> b <= len s ->
  endswith (slice s a b) c = char_eqb (char_at s (b - 1)) c.
Proof.
  intros Ha Hab Hb. unfold endswith.
  destruct (slice_rev_head s a b Ha Hab Hb) as [r Hr]. now rewrite Hr.
Qed.

Lemma ends_with_whitespace_slice (s : pystr) (a b : Z) :
  0 <= a -> a < b -> b <= len s ->
  ends_with_whitespace (slice s a b) = is_whitespace (char_at s (b - 1)).
Proof.
  intros Ha Hab Hb. unfold ends_with_whitespace.
  destruct (slice_rev_head s a b Ha Hab Hb) as [r Hr]. now rewrite Hr.
Qed.

(* ================================================================== *)
(** * The search loop *)
(* ================================================================== *)

Section Search.

Variable word_class : char -> bool.
Variable text : pystr.
Variable i_is_start : bool.

(** Inside its guard the condition of the loop never raises. *)
Lemma probe_border (p : Z) :
  probe word_class text i_is_start p
  = Ret (border word_class text i_is_start p).
Proof.
  unfold probe, border.
  destruct ((0 <=? p - 1) && (p <? len text)) eqn:G; [|reflexivity].
  apply andb_true_iff in G as [G1 G2].
  apply Z.leb_le in G1. apply Z.ltb_lt in G2.
  rewrite !index_char_at by lia. reflexivity.
Qed.

(** One turn of the loop. *)
Lemma search_step (fuel : nat) (c st : Z) :
  search word_class (S fuel) text i_is_start c st
  = if border word_class text i_is_start c then Ret c
    else search word_class fuel text i_is_start (c + st)
           ((if 0 <? st then st + 1 else st - 1) * -1).
Proof. cbn [search]. rewrite probe_border. reflexivity. Qed.

Lemma search_sound (fuel : nat) :
  forall c st r,
    search word_class fuel text i_is_start c st = Ret r ->
    border word_class text i_is_start r = true.
Proof.
  induction fuel as [|fuel IH]; intros c st r H; [discriminate|].
  rewrite search_step in H.
  destruct (border word_class text i_is_start c) eqn:B.
  - now inversion H; subst.
  - eapply IH; eassumption.
Qed.

Lemma search_no_raise (fuel : nat) :
  forall c st e, search word_class fuel text i_is_start c st <> Raise e.
Proof.
  induction fuel as [|fuel IH]; intros c st e; [discriminate|].
  rewrite search_step.
  destruct (border word_class text i_is_start c); [discriminate | apply IH].
Qed.

(** More fuel does not change a result. *)
Lemma search_mono (fuel : nat) :
  forall fuel' c st r,
    (fuel <= fuel')%nat ->
    search word_class fuel text i_is_start c st = Ret r ->
    search word_class fuel' text i_is_start c st = Ret r.
Proof.
  induction fuel as [|fuel IH]; intros fuel' c st r Hle H; [discriminate|].
  destruct fuel' as [|fuel']; [lia|].
  rewrite search_step in *.
  destruct (border word_class text i_is_start c); [assumption|].
  apply IH; [lia | assumption].
Qed.

(** Without a border the loop never ends. *)
Lemma search_no_border :
  (forall p, border word_class text i_is_start p = false) ->
  forall fuel c st, search word_class fuel text i_is_start c st = NoFuel.
Proof.
  intros Hnone. induction fuel as [|fuel IH]; intros c st; [reflexivity|].
  rewrite search_step, Hnone. apply IH.
Qed.

(** The positions probed so far are the [|st|] positions from [c] towards
    [c + st], [c + st] excluded; two turns of the loop add one position on
    each side.  A border [p] at most [j] positions outside of them is found
    within [2 j + 1] probes. *)
Lemma search_reaches (p : Z) :
  border word_class text i_is_start p = true ->
  forall (j : nat) (c st : Z),
    p = c
    \/ (0 < st /\ (c - Z.of_nat j <= p < c
                   \/ c + st <= p < c + st + Z.of_nat j))
    \/ (st < 0 /\ (c < p <= c + Z.of_nat j
                   \/ c + st - Z.of_nat j < p <= c + st)) ->
    exists r, search word_class (2 * j + 1) text i_is_start c st = Ret r.
Proof.
  intros Hp. induction j as [|j IH]; intros c st Hpos.
  - cbn [Nat.mul Nat.add]. rewrite search_step.
    assert (p = c) by lia. subst c. rewrite Hp. eauto.
  - replace (2 * S j + 1)%nat with (S (S (2 * j + 1))) by lia.
    rewrite search_step.
    destruct (border word_class text i_is_start c) eqn:Bc; [eauto|].
    rewrite search_step.
    destruct (border word_class text i_is_start (c + st)) eqn:Bn; [eauto|].
    assert (p <> c) by congruence.
    assert (p <> c + st) by congruence.
    apply IH.
    destruct (0 <? st) eqn:Hst.
    + apply Z.ltb_lt in Hst.
      destruct (0 <? (st + 1) * -1) eqn:Hst'; [apply Z.ltb_lt in Hst'; lia|].
      lia.
    + apply Z.ltb_ge in Hst.
      destruct (0 <? (st - 1) * -1) eqn:Hst';
        [|apply Z.ltb_ge in Hst'; lia].
      lia.
Qed.

(** From the start of the loop: a border at distance [j] is found within
    [2 j + 1] probes, whatever the mode. *)
Lemma search_terminates (p c st : Z) (j : nat) :
  border word_class text i_is_start p = true ->
  st = 1 \/ st = -1 ->
  Z.abs (p - c) <= Z.of_nat j ->
  exists r, forall fuel, (2 * j + 1 <= fuel)%nat ->
    search word_class fuel text i_is_start c st = Ret r.
Proof.
  intros Hp Hst Hd.
  destruct (search_reaches p Hp j c st) as [r Hr]; [lia|].
  exists r. intros fuel Hfuel. eapply search_mono; eassumption.
Qed.

End Search.

(* ================================================================== *)
(** * Borders of the padded text *)
(* ================================================================== *)

Lemma char_eqb_eq (a b : char) : char_eqb a b = true <-> a = b.
Proof. apply N.eqb_eq. Qed.

Lemma abbreviation_period_inside (text : pystr) (p : Z) :
  0 <= p < len text ->
  abbreviation_period text p = Ret (abbreviation text p).
Proof.
  intros Hp. unfold abbreviation_period, abbreviation.
  now rewrite index_char_at.
Qed.

Lemma abbreviation_period_pad (text : pystr) (p : Z) :
  0 <= p <= len text + 1 ->
  abbreviation_period (pad text) p = Ret (abbreviation (pad text) p).
Proof.
  intros Hp. apply abbreviation_period_inside. rewrite len_pad. lia.
Qed.

Section Borders.

Variable word_class : char -> bool.
Hypothesis space_no_word : word_class SPACE = false.

(** A non-word character followed, somewhere, by a word character: the
    first word character is a START border. *)
Lemma rise_exists (l : pystr) :
  forall a, word_class a = false -> existsb word_class l = true ->
  exists n, (n < List.length l)%nat
            /\ word_class (nth n (a :: l) SPACE) = false
            /\ word_class (nth (S n) (a :: l) SPACE) = true.
Proof.
  induction l as [|x l IH]; intros a Ha Hex; [discriminate|].
  cbn [existsb] in Hex. destruct (word_class x) eqn:Hx.
  - exists 0%nat. cbn. repeat split; [lia | assumption | assumption].
  - cbn in Hex. destruct (IH x Hx Hex) as (n & Hn & H1 & H2).
    exists (S n). cbn [List.length nth]. repeat split; [lia | | ]; assumption.
Qed.

(** A word character followed, in the end, by a non-word character: the
    position after the last word character is an END border. *)
Lemma fall_exists (l : pystr) :
  forall b, word_class b = false -> existsb word_class l = true ->
  exists n, (n < List.length l)%nat
            /\ word_class (nth n (l ++ [b]) SPACE) = true
            /\ word_class (nth (S n) (l ++ [b]) SPACE) = false.
Proof.
  induction l as [|x l IH]; intros b Hb Hex; [discriminate|].
  cbn [existsb] in Hex. destruct (existsb word_class l) eqn:Hl.
  - destruct (IH b Hb eq_refl) as (n & Hn & H1 & H2).
    exists (S n). cbn [List.length app nth]. repeat split; [lia | | ]; assumption.
  - rewrite orb_false_r in Hex. exists 0%nat. cbn [List.length app nth].
    repeat split; [lia | assumption |].
    destruct l as [|y l]; [assumption|].
    cbn in Hl. apply orb_false_iff in Hl. cbn. tauto.
Qed.

Lemma border_start_inv (text : pystr) (p : Z) :
  border word_class (pad text) true p = true ->
  1 <= p <= len text /\ word_class (char_at text (p - 1)) = true.
Proof.
  unfold border, is_border, is_not_char, is_char. intros H.
  apply andb_true_iff in H as [H Hb]. apply andb_true_iff in H as [H1 H2].
  apply andb_true_iff in Hb as [_ Hb].
  apply Z.leb_le in H1. apply Z.ltb_lt in H2. rewrite len_pad in H2.
  assert (p <> len text + 1).
  { intros ->. rewrite char_at_pad_last in Hb. congruence. }
  rewrite char_at_pad in Hb by lia. split; [lia | assumption].
Qed.

Lemma border_end_inv (text : pystr) (p : Z) :
  border word_class (pad text) false p = true ->
  2 <= p <= len text + 1
  /\ word_class (char_at text (p - 2)) = true
  /\ word_class (char_at (pad text) p) = false.
Proof.
  unfold border, is_border, is_not_char, is_char. intros H.
  apply andb_true_iff in H as [H Hb]. apply andb_true_iff in H as [H1 H2].
  apply andb_true_iff in Hb as [Ha Hb]. apply negb_true_iff in Hb.
  apply Z.leb_le in H1. apply Z.ltb_lt in H2. rewrite len_pad in H2.
  assert (p - 1 <> 0).
  { intros E. rewrite E, char_at_pad_first in Ha. congruence. }
  rewrite char_at_pad in Ha by lia.
  replace (p - 1 - 1) with (p - 2) in Ha by lia.
  repeat split; try lia; assumption.
Qed.

Lemma start_border_exists (text : pystr) :
  has_word word_class text = true ->
  exists p, 1 <= p <= len text
            /\ border word_class (pad text) true p = true.
Proof.
  intros Hw. unfold has_word in Hw.
  destruct (rise_exists (text ++ [SPACE]) SPACE space_no_word)
    as (n & Hn & H1 & H2).
  { rewrite existsb_app, Hw. reflexivity. }
  rewrite length_app in Hn. cbn in Hn.
  assert (B : border word_class (pad text) true (Z.of_nat n + 1) = true).
  { unfold border. rewrite len_pad.
    unfold is_border, is_not_char, is_char, char_at, pad.
    replace (Z.to_nat (Z.of_nat n + 1 - 1)) with n by lia.
    replace (Z.to_nat (Z.of_nat n + 1)) with (S n) by lia.
    rewrite H1, H2. cbn [negb andb].
    rewrite !andb_true_r. apply andb_true_iff. split;
      [apply Z.leb_le | apply Z.ltb_lt]; unfold len; lia. }
  exists (Z.of_nat n + 1). split; [|assumption].
  now apply border_start_inv.
Qed.

Lemma end_border_exists (text : pystr) :
  has_word word_class text = true ->
  exists p, 2 <= p <= len text + 1
            /\ border word_class (pad text) false p = true.
Proof.
  intros Hw. unfold has_word in Hw.
  destruct (fall_exists text SPACE space_no_word Hw) as (n & Hn & H1 & H2).
  assert (B : border word_class (pad text) false (Z.of_nat n + 2) = true).
  { unfold border. rewrite len_pad.
    unfold is_border, is_not_char, is_char, char_at, pad.
    replace (Z.to_nat (Z.of_nat n + 2 - 1)) with (S n) by lia.
    replace (Z.to_nat (Z.of_nat n + 2)) with (S (S n)) by lia.
    cbn [nth]. rewrite H1, H2. cbn [negb andb].
    rewrite !andb_true_r. apply andb_true_iff. split;
      [apply Z.leb_le | apply Z.ltb_lt]; unfold len; lia. }
  exists (Z.of_nat n + 2). split; [|assumption].
  now apply border_end_inv.
Qed.

(** A text without a word character has no border at all. *)
Lemma no_word_no_border (text : pystr) (i_is_start : bool) (p : Z) :
  has_word word_class text = false ->
  border word_class (pad text) i_is_start p = false.
Proof.
  intros Hw. destruct (border word_class (pad text) i_is_start p) eqn:B;
    [|reflexivity].
  assert (Hall : forall q, 0 <= q < len text ->
                           word_class (char_at text q) = false).
  { intros q Hq. unfold has_word in Hw.
    destruct (word_class (char_at text q)) eqn:E; [|reflexivity].
    assert (existsb word_class text = true); [|congruence].
    apply existsb_exists. exists (char_at text q).
    split; [now apply char_at_In | assumption]. }
  destruct i_is_start.
  - apply border_start_inv in B as [Hr Hc].
    rewrite Hall in Hc by lia. discriminate.
  - apply border_end_inv in B as (Hr & Hc & _).
    rewrite Hall in Hc by lia. discriminate.
Qed.

End Borders.

(* ================================================================== *)
(** * fix_char_index *)
(* ================================================================== *)

Section FixCharIndex.

Variable word_class : char -> bool.
Hypothesis space_no_word : word_class SPACE = false.
Hypothesis period_no_word : word_class PERIOD = false.

Lemma fix_char_index_found (fuel : nat) (text : pystr) (i : Z)
      (i_is_start : bool) (p : Z) :
  search word_class fuel (pad text) i_is_start (i + 1)
         (if i_is_start then -1 else 1) = Ret p ->
  fix_char_index word_class fuel text i i_is_start
  = Ret ((if abbreviation (pad text) p then p + 1 else p) - 1).
Proof.
  intros H. unfold fix_char_index. rewrite H. cbn [bind].
  apply search_sound in H.
  assert (0 <= p < len (pad text)).
  { unfold border in H. apply andb_true_iff in H as [H _].
    apply andb_true_iff in H as [H1 H2].
    apply Z.leb_le in H1. apply Z.ltb_lt in H2. lia. }
  rewrite abbreviation_period_inside by assumption. reflexivity.
Qed.

Lemma fix_char_index_inv (fuel : nat) (text : pystr) (i : Z)
      (i_is_start : bool) (r : Z) :
  fix_char_index word_class fuel text i i_is_start = Ret r ->
  exists p,
    search word_class fuel (pad text) i_is_start (i + 1)
           (if i_is_start then -1 else 1) = Ret p
    /\ border word_class (pad text) i_is_start p = true
    /\ r = (if abbreviation (pad text) p then p + 1 else p) - 1.
Proof.
  intros H.
  destruct (search word_class fuel (pad text) i_is_start (i + 1)
                   (if i_is_start then -1 else 1)) as [p| |] eqn:Hs.
  - exists p. rewrite (fix_char_index_found _ _ _ _ _ Hs) in H.
    inversion H. split; [reflexivity|].
    split; [eapply search_sound; eassumption | reflexivity].
  - unfold fix_char_index in H. rewrite Hs in H. discriminate.
  - unfold fix_char_index in H. rewrite Hs in H. discriminate.
Qed.

(** A START border is a word character: the abbreviation rule is off. *)
Lemma start_border_result (text : pystr) (p : Z) :
  border word_class (pad text) true p = true ->
  abbreviation (pad text) p = false
  /\ 0 <= p - 1 <= len text - 1
  /\ word_class (char_at text (p - 1)) = true.
Proof.
  intros B. apply border_start_inv in B as [Hr Hc]; [|assumption].
  repeat split; try lia; try assumption.
  unfold abbreviation. rewrite char_at_pad by lia.
  destruct (char_eqb (char_at text (p - 1)) PERIOD) eqn:E; [|reflexivity].
  apply char_eqb_eq in E. congruence.
Qed.

(** An END border follows a word character; with the abbreviation rule
    the result follows a period. *)
Lemma end_border_result (text : pystr) (p : Z) :
  border word_class (pad text) false p = true ->
  let r := (if abbreviation (pad text) p then p + 1 else p) - 1 in
  1 <= r <= len text
  /\ (word_class (char_at text (r - 1)) = true
      \/ char_at text (r - 1) = PERIOD).
Proof.
  intros B. apply border_end_inv in B as (Hr & Hc & _); [|assumption].
  cbv zeta. destruct (abbreviation (pad text) p) eqn:A.
  - unfold abbreviation in A. apply andb_true_iff in A as [A _].
    apply char_eqb_eq in A.
    assert (p <> len text + 1).
    { intros E. rewrite E, char_at_pad_last in A. discriminate. }
    rewrite char_at_pad in A by lia.
    split; [lia|]. right. replace (p + 1 - 1 - 1) with (p - 1) by lia.
    assumption.
  - split; [lia|]. left. replace (p - 1 - 1) with (p - 2) by lia.
    assumption.
Qed.

Lemma fix_char_index_start_spec (fuel : nat) (text : pystr) (i r : Z) :
  fix_char_index word_class fuel text i true = Ret r ->
  0 <= r <= len text - 1 /\ word_class (char_at text r) = true.
Proof.
  intros H. apply fix_char_index_inv in H as (p & _ & B & ->).
  apply start_border_result in B as (-> & Hr & Hc). tauto.
Qed.

Lemma fix_char_index_end_spec (fuel : nat) (text : pystr) (i r : Z) :
  fix_char_index word_class fuel text i false = Ret r ->
  1 <= r <= len text
  /\ (word_class (char_at text (r - 1)) = true
      \/ char_at text (r - 1) = PERIOD).
Proof.
  intros H. apply fix_char_index_inv in H as (p & _ & B & ->).
  now apply end_border_result.
Qed.

(** With a word character in the text the loop ends, after at most
    [2 j + 1] probes when no position of the padded text is further than [j]
    from the index. *)
Lemma fix_char_index_total (text : pystr) (i : Z) (i_is_start : bool)
      (j : nat) :
  has_word word_class text = true ->
  (forall p, 1 <= p <= len text + 1 -> Z.abs (p - (i + 1)) <= Z.of_nat j) ->
  exists r, forall fuel, (2 * j + 1 <= fuel)%nat ->
    fix_char_index word_class fuel text i i_is_start = Ret r.
Proof.
  intros Hw Hj.
  assert (Hb : exists p, 1 <= p <= len text + 1
                         /\ border word_class (pad text) i_is_start p = true).
  { destruct i_is_start.
    - destruct (start_border_exists _ space_no_word _ Hw) as (p & Hp & B).
      exists p. split; [lia | assumption].
    - destruct (end_border_exists _ space_no_word _ Hw) as (p & Hp & B).
      exists p. split; [lia | assumption]. }
  destruct Hb as (p & Hp & B).
  destruct (search_terminates word_class (pad text) i_is_start p (i + 1)
              (if i_is_start then -1 else 1) j B) as [q Hq].
  - destruct i_is_start; auto.
  - now apply Hj.
  - exists ((if abbreviation (pad text) q then q + 1 else q) - 1).
    intros fuel Hfuel. apply fix_char_index_found. now apply Hq.
Qed.

(** Without a word character the loop never ends. *)
Lemma fix_char_index_no_word (text : pystr) (i : Z) (i_is_start : bool) :
  has_word word_class text = false ->
  diverges (fun fuel => fix_char_index word_class fuel text i i_is_start).
Proof.
  intros Hw fuel. unfold fix_char_index.
  rewrite search_no_border; [reflexivity|].
  intros p. now apply no_word_no_border.
Qed.

End FixCharIndex.

(* ================================================================== *)
(** * fix_parenthesis and the assertion *)
(* ================================================================== *)

Lemma left_parenthesis_true (text : pystr) (i_a i_b : Z) :
  left_parenthesis text i_a i_b = Ret true ->
  count (slice text i_a i_b) LPAREN < count (slice text i_a i_b) RPAREN.
Proof.
  unfold left_parenthesis. destruct (0 <? i_a); [|discriminate].
  destruct (index text (i_a - 1)) as [c| |]; cbn [bind]; try discriminate.
  intros H. inversion H as [H']. apply andb_true_iff in H' as [_ H'].
  now apply Z.ltb_lt.
Qed.

Lemma right_parenthesis_true (text : pystr) (i_a i_b : Z) :
  right_parenthesis text i_a i_b = Ret true ->
  count (slice text i_a i_b) RPAREN < count (slice text i_a i_b) LPAREN.
Proof.
  unfold right_parenthesis. destruct (i_b <? len text - 1); [|discriminate].
  destruct (index text i_b) as [c| |]; cbn [bind]; try discriminate.
  intros H. inversion H as [H']. apply andb_true_iff in H' as [_ H'].
  now apply Z.ltb_lt.
Qed.

(** The two conditions exclude each other. *)
Lemma parenthesis_exclusive (text : pystr) (i_a i_b : Z) :
  left_parenthesis text i_a i_b = Ret true ->
  right_parenthesis text i_a i_b = Ret true -> False.
Proof.
  intros L R. apply left_parenthesis_true in L.
  apply right_parenthesis_true in R. lia.
Qed.

Lemma left_parenthesis_inside (text : pystr) (i_a i_b : Z) :
  0 <= i_a <= len text - 1 ->
  exists l, left_parenthesis text i_a i_b = Ret l
            /\ (l = true -> 0 < i_a /\ char_at text (i_a - 1) = LPAREN).
Proof.
  intros Ha. unfold left_parenthesis. destruct (0 <? i_a) eqn:G.
  - apply Z.ltb_lt in G. rewrite index_char_at by lia. cbn [bind].
    eexists. split; [reflexivity|]. intros H.
    apply andb_true_iff in H as [H _]. apply char_eqb_eq in H. tauto.
  - exists false. split; [reflexivity | discriminate].
Qed.

Lemma right_parenthesis_inside (text : pystr) (i_a i_b : Z) :
  1 <= i_b <= len text ->
  exists r, right_parenthesis text i_a i_b = Ret r
            /\ (r = true -> i_b < len text - 1 /\ char_at text i_b = RPAREN).
Proof.
  intros Hb. unfold right_parenthesis. destruct (i_b <? len text - 1) eqn:G.
  - apply Z.ltb_lt in G. rewrite index_char_at by lia. cbn [bind].
    eexists. split; [reflexivity|]. intros H.
    apply andb_true_iff in H as [H _]. apply char_eqb_eq in H. tauto.
  - exists false. split; [reflexivity | discriminate].
Qed.

(** On offsets inside the text [fix_parenthesis] returns, and moves at most
    one offset, by one position, onto a parenthesis. *)
Lemma fix_parenthesis_inside (text : pystr) (i_a i_b : Z) (label : pystr) :
  0 <= i_a <= len text - 1 -> 1 <= i_b <= len text ->
  exists e',
    fix_parenthesis (i_a, i_b, label) text = Ret e'
    /\ (e' = (i_a, i_b, label)
        \/ (e' = (i_a - 1, i_b, label)
            /\ 0 < i_a /\ char_at text (i_a - 1) = LPAREN)
        \/ (e' = (i_a, i_b + 1, label)
            /\ i_b < len text - 1 /\ char_at text i_b = RPAREN)).
Proof.
  intros Ha Hb.
  destruct (left_parenthesis_inside text i_a i_b Ha) as (l & Hl & Hl').
  destruct (right_parenthesis_inside text i_a i_b Hb) as (r & Hr & Hr').
  unfold fix_parenthesis. cbn [ent_start ent_end ent_label fst snd].
  rewrite Hl. cbn [bind]. rewrite Hr. cbn [bind].
  eexists. split; [reflexivity|].
  destruct r; [right; right; tauto|].
  destruct l; [right; left; tauto|]. now left.
Qed.

Lemma assert_no_space_ok (text : pystr) (i_a i_b : Z) (label : pystr) :
  0 <= i_a <= len text - 1 -> 1 <= i_b <= len text ->
  char_at text i_a <> SPACE -> char_at text (i_b - 1) <> SPACE ->
  assert_no_space text (i_a, i_b, label) = Ret tt.
Proof.
  intros Ha Hb Hs He. unfold assert_no_space.
  cbn [ent_start ent_end fst snd].
  destruct (Z_lt_le_dec i_a i_b) as [Hlt|Hle].
  - rewrite startswith_slice, endswith_slice by lia.
    destruct (char_eqb (char_at text i_a) SPACE) eqn:E1;
      [apply char_eqb_eq in E1; contradiction|].
    destruct (char_eqb (char_at text (i_b - 1)) SPACE) eqn:E2;
      [apply char_eqb_eq in E2; contradiction|].
    reflexivity.
  - rewrite slice_empty by lia. reflexivity.
Qed.

(* ================================================================== *)
(** * fix_borders *)
(* ================================================================== *)

Section FixBordersTotal.

Variable word_class : char -> bool.
Hypothesis space_no_word : word_class SPACE = false.
Hypothesis period_no_word : word_class PERIOD = false.

Lemma corrected_no_space (text : pystr) (e e' : ent) :
  corrected word_class text e e' ->
  char_at text (ent_start e') <> SPACE
  /\ char_at text (ent_end e' - 1) <> SPACE.
Proof.
  intros (_ & _ & _ & Hs & He). split.
  - destruct Hs as [Hs|Hs]; intros E; rewrite E in Hs;
      [congruence | discriminate].
  - destruct He as [He|[He|He]]; intros E; rewrite E in He;
      [congruence | discriminate | discriminate].
Qed.

Lemma corrected_cases (text : pystr) (e e1 : ent) (i_a i_b : Z) :
  0 <= i_a <= len text - 1 ->
  word_class (char_at text i_a) = true ->
  1 <= i_b <= len text ->
  word_class (char_at text (i_b - 1)) = true
  \/ char_at text (i_b - 1) = PERIOD ->
  e1 = (i_a, i_b, ent_label e)
  \/ (e1 = (i_a - 1, i_b, ent_label e)
      /\ 0 < i_a /\ char_at text (i_a - 1) = LPAREN)
  \/ (e1 = (i_a, i_b + 1, ent_label e)
      /\ i_b < len text - 1 /\ char_at text i_b = RPAREN) ->
  corrected word_class text e e1.
Proof.
  intros Ha Hca Hb Hcb Hcases. unfold corrected.
  destruct Hcases as [->|[(-> & H0 & Hc)|(-> & H0 & Hc)]];
    cbn [ent_start ent_end ent_label fst snd].
  - refine (conj eq_refl (conj _ (conj _ (conj _ _))));
      [lia | lia | now left | tauto].
  - refine (conj eq_refl (conj _ (conj _ (conj _ _))));
      [lia | lia | now right | tauto].
  - replace (i_b + 1 - 1) with i_b by lia.
    refine (conj eq_refl (conj _ (conj _ (conj _ _))));
      [lia | lia | now left | tauto].
Qed.

(** Whatever [fix_ent] returns is inside the text and well delimited. *)
Lemma fix_ent_corrected (fuel : nat) (text : pystr) (e e' : ent) :
  fix_ent word_class fuel text e = Ret e' ->
  corrected word_class text e e'.
Proof.
  unfold fix_ent. intros H.
  destruct (fix_char_index word_class fuel text (ent_start e) true)
    as [i_a| |] eqn:Ha; try discriminate.
  destruct (fix_char_index word_class fuel text (ent_end e) false)
    as [i_b| |] eqn:Hb; try discriminate.
  cbn [bind] in H.
  apply fix_char_index_start_spec in Ha as [Ha Hca]; try assumption.
  apply fix_char_index_end_spec in Hb as [Hb Hcb]; try assumption.
  destruct (fix_parenthesis_inside text i_a i_b (ent_label e) Ha Hb)
    as (e1 & Hp & Hcases).
  rewrite Hp in H. cbn [bind] in H.
  destruct (assert_no_space text e1); try discriminate.
  cbn [bind] in H. inversion H; subst e'. clear H.
  eapply corrected_cases; eassumption.
Qed.

(** With a word character in the text [fix_ent] returns, for any offsets. *)
Lemma fix_ent_total (text : pystr) (e : ent) :
  has_word word_class text = true ->
  exists e', corrected word_class text e e'
             /\ exists fuel0, forall fuel, (fuel0 <= fuel)%nat ->
                  fix_ent word_class fuel text e = Ret e'.
Proof.
  intros Hw.
  pose proof (len_nonneg text) as Hlen.
  destruct (fix_char_index_total word_class space_no_word text
              (ent_start e) true
              (Z.to_nat (Z.abs (ent_start e) + len text + 1)) Hw)
    as [i_a Ha]; [intros p Hp; lia|].
  destruct (fix_char_index_total word_class space_no_word text
              (ent_end e) false
              (Z.to_nat (Z.abs (ent_end e) + len text + 1)) Hw)
    as [i_b Hb]; [intros p Hp; lia|].
  set (fa := (2 * Z.to_nat (Z.abs (ent_start e) + len text + 1) + 1)%nat)
    in *.
  set (fb := (2 * Z.to_nat (Z.abs (ent_end e) + len text + 1) + 1)%nat) in *.
  pose proof (Ha fa (Nat.le_refl _)) as Ha0.
  pose proof (Hb fb (Nat.le_refl _)) as Hb0.
  apply fix_char_index_start_spec in Ha0 as [Hra Hca]; try assumption.
  apply fix_char_index_end_spec in Hb0 as [Hrb Hcb]; try assumption.
  destruct (fix_parenthesis_inside text i_a i_b (ent_label e) Hra Hrb)
    as (e1 & Hp & Hcases).
  assert (Hrun : forall fuel, (Nat.max fa fb <= fuel)%nat ->
            fix_ent word_class fuel text e
            = (_ <- assert_no_space text e1 ;; Ret e1)).
  { intros fuel Hfuel. unfold fix_ent.
    rewrite Ha by lia. cbn [bind]. rewrite Hb by lia. cbn [bind].
    rewrite Hp. reflexivity. }
  assert (Hc : corrected word_class text e e1).
  { eapply corrected_cases; eassumption. }
  exists e1. split; [assumption|].
  exists (Nat.max fa fb). intros fuel Hfuel. rewrite Hrun by assumption.
  destruct (corrected_no_space text e e1 Hc) as [Hs He].
  destruct Hc as (_ & Hs' & He' & _).
  destruct e1 as [[a b] l]. cbn [ent_start ent_end fst snd] in *.
  now rewrite assert_no_space_ok.
Qed.

Lemma fix_borders_corrected (fuel : nat) (text : pystr) :
  forall ent_list ent_list_new,
    fix_borders word_class fuel ent_list text = Ret ent_list_new ->
    Forall2 (corrected word_class text) ent_list ent_list_new.
Proof.
  unfold fix_borders.
  induction ent_list as [|e rest IH]; intros out H; cbn in H.
  - inversion H. constructor.
  - destruct (fix_ent word_class fuel text e) as [e'| |] eqn:He;
      try discriminate.
    cbn [bind] in H.
    destruct (fix_borders_main word_class fuel rest text) as [out'| |];
      try discriminate.
    cbn [bind] in H. inversion H; subst out.
    constructor; [eapply fix_ent_corrected; eassumption | now apply IH].
Qed.

Lemma fix_borders_total (text : pystr) :
  has_word word_class text = true ->
  forall ent_list,
  exists ent_list_new,
    Forall2 (corrected word_class text) ent_list ent_list_new
    /\ exists fuel0, forall fuel, (fuel0 <= fuel)%nat ->
         fix_borders word_class fuel ent_list text = Ret ent_list_new.
Proof.
  intros Hw. unfold fix_borders.
  induction ent_list as [|e rest IH].
  - exists []. split; [constructor|]. exists 0%nat. reflexivity.
  - destruct (fix_ent_total text e Hw) as (e' & Hc & f1 & H1).
    destruct IH as (out & Hout & f2 & H2).
    exists (e' :: out). split; [now constructor|].
    exists (Nat.max f1 f2). intros fuel Hfuel. cbn [fix_borders_main].
    rewrite H1 by lia. cbn [bind]. rewrite H2 by lia. reflexivity.
Qed.

End FixBordersTotal.

(** [fix_borders] raises nothing: inside the text [fix_parenthesis] finds
    every character it reads, and the assertion holds. *)
Section FixBordersNoRaise.

Variable word_class : char -> bool.
Hypothesis space_no_word : word_class SPACE = false.
Hypothesis period_no_word : word_class PERIOD = false.

Lemma fix_char_index_no_raise (fuel : nat) (text : pystr) (i : Z)
      (i_is_start : bool) (e : exn) :
  fix_char_index word_class fuel text i i_is_start <> Raise e.
Proof.
  destruct (search word_class fuel (pad text) i_is_start (i + 1)
                   (if i_is_start then -1 else 1)) as [p|e'|] eqn:Hs.
  - rewrite (fix_char_index_found _ _ _ _ _ _ Hs). discriminate.
  - now apply search_no_raise in Hs.
  - unfold fix_char_index. rewrite Hs. discriminate.
Qed.

Lemma fix_ent_no_raise (fuel : nat) (text : pystr) (e : ent) (x : exn) :
  fix_ent word_class fuel text e <> Raise x.
Proof.
  unfold fix_ent.
  destruct (fix_char_index word_class fuel text (ent_start e) true)
    as [i_a| |] eqn:Ha; cbn [bind];
    [|now apply fix_char_index_no_raise in Ha | discriminate].
  destruct (fix_char_index word_class fuel text (ent_end e) false)
    as [i_b| |] eqn:Hb; cbn [bind];
    [|now apply fix_char_index_no_raise in Hb | discriminate].
  apply fix_char_index_start_spec in Ha as [Ha Hca]; try assumption.
  apply fix_char_index_end_spec in Hb as [Hb Hcb]; try assumption.
  destruct (fix_parenthesis_inside text i_a i_b (ent_label e) Ha Hb)
    as (e1 & Hp & Hcases).
  rewrite Hp. cbn [bind].
  assert (Hc : corrected word_class text e e1)
    by (eapply corrected_cases; eassumption).
  destruct (corrected_no_space word_class space_no_word period_no_word
              text e e1 Hc) as [Hs He].
  destruct Hc as (_ & Hs' & He' & _).
  destruct e1 as [[a b] l]. cbn [ent_start ent_end fst snd] in *.
  rewrite assert_no_space_ok by assumption. discriminate.
Qed.

Lemma fix_borders_no_raise (fuel : nat) (text : pystr) (x : exn) :
  forall ent_list, fix_borders word_class fuel ent_list text <> Raise x.
Proof.
  unfold fix_borders. induction ent_list as [|e rest IH]; cbn; [discriminate|].
  destruct (fix_ent word_class fuel text e) as [e'| |] eqn:He; cbn [bind];
    [|now apply fix_ent_no_raise in He | discriminate].
  destruct (fix_borders_main word_class fuel rest text) as [out| |];
    cbn [bind]; [discriminate | exact IH | discriminate].
Qed.

End FixBordersNoRaise.

(** The ASCII classifier has the properties asked of a word class. *)
Lemma ascii_class_space : ascii_class SPACE = false.
Proof. reflexivity. Qed.

Lemma ascii_class_period : ascii_class PERIOD = false.
Proof. reflexivity. Qed.

Lemma ascii_class_whitespace (c : char) :
  is_whitespace c = true -> ascii_class c = false.
Proof.
  unfold is_whitespace, ascii_class, ascii_word. intros H.
  apply not_true_is_false. intros G.
  repeat rewrite ?orb_true_iff, ?andb_true_iff, ?N.leb_le, ?N.eqb_eq,
    ?N.ltb_lt in H.
  repeat rewrite ?orb_true_iff, ?andb_true_iff, ?N.leb_le, ?N.eqb_eq,
    ?N.ltb_lt in G.
  lia.
Qed.

(* ================================================================== *)
(** * Properties of the Boundary Locator and of the Span Normalizer *)
(* ================================================================== *)

Section BoundaryProperties.

Variable word_class : char -> bool.
Hypothesis space_no_word : word_class SPACE = false.
Hypothesis period_no_word : word_class PERIOD = false.

(** C1, as amended: for every text that contains at least one word
    character, every index with [0 <= i <= len(text)] and either mode,
    [fix_char_index] returns a value within [0 .. len(text)], after at most
    [2 * len(text) + 1] probes. *)
Theorem fix_char_index_terminates (text : pystr) (i : Z) (i_is_start : bool) :
  has_word word_class text = true ->
  0 <= i <= len text ->
  exists r,
    0 <= r <= len text
    /\ forall fuel, (2 * List.length text + 1 <= fuel)%nat ->
         fix_char_index word_class fuel text i i_is_start = Ret r.
Proof.
  intros Hw Hi.
  destruct (fix_char_index_total word_class space_no_word text i i_is_start
              (List.length text) Hw) as [r Hr].
  { intros p Hp. unfold len in *. lia. }
  exists r. split; [|exact Hr].
  pose proof (Hr _ (Nat.le_refl _)) as H.
  destruct i_is_start.
  - apply fix_char_index_start_spec in H; try assumption. lia.
  - apply fix_char_index_end_spec in H; try assumption. lia.
Qed.

(** C10: whenever [fix_char_index] returns [r] in START mode, [r] lies in
    [0 .. len(text) - 1] and [text[r]] is a word character; the border the
    loop stopped at is not a period, so the abbreviation rule did not
    apply. *)
Theorem fix_char_index_start_on_word (fuel : nat) (text : pystr) (i r : Z) :
  fix_char_index word_class fuel text i true = Ret r ->
  0 <= r <= len text - 1
  /\ (exists c, index text r = Ret c /\ is_char word_class c = true)
  /\ (exists i_corrected,
        search word_class fuel (pad text) true (i + 1) (-1) = Ret i_corrected
        /\ abbreviation_period (pad text) i_corrected = Ret false
        /\ r = i_corrected - 1).
Proof.
  intros H.
  pose proof (fix_char_index_start_spec word_class space_no_word
                period_no_word _ _ _ _ H)
    as [Hr Hc].
  split; [assumption|]. split.
  - exists (char_at text r). split; [|assumption].
    apply index_char_at. lia.
  - apply fix_char_index_inv in H as (p & Hs & B & ->).
    exists p. split; [assumption|].
    pose proof (start_border_result word_class space_no_word period_no_word
                  _ _ B) as (Ha & Hp & _).
    rewrite Ha. rewrite abbreviation_period_pad by lia.
    rewrite Ha. tauto.
Qed.

End BoundaryProperties.

Section SpanProperties.

Variable word_class : char -> bool.
Hypothesis space_no_word : word_class SPACE = false.
Hypothesis period_no_word : word_class PERIOD = false.


(** C6, as amended: for every text that contains at least one word
    character and every list of input spans, [fix_borders] returns, and
    every span [(start', end', label)] it returns has
    [0 <= start' <= len(text) - 1] and [1 <= end' <= len(text)]; nothing is
    said of the order of [start'] and [end']. *)
Theorem fix_borders_offsets_inside (text : pystr) (ent_list : list ent) :
  has_word word_class text = true ->
  exists ent_list_new,
    (exists fuel0, forall fuel, (fuel0 <= fuel)%nat ->
       fix_borders word_class fuel ent_list text = Ret ent_list_new)
    /\ Forall (fun e' => 0 <= ent_start e' <= len text - 1
                         /\ 1 <= ent_end e' <= len text) ent_list_new.
Proof.
  intros Hw.
  destruct (fix_borders_total word_class space_no_word period_no_word
              text Hw ent_list) as (out & Hc & Hrun).
  exists out. split; [exact Hrun|].
  clear Hrun. induction Hc as [|e e' l l' H _ IH]; constructor;
    [|exact IH].
  destruct H as (_ & Hs & He & _). tauto.
Qed.

End SpanProperties.

Section Whitespace.

Variable word_class : char -> bool.
Hypothesis period_no_word : word_class PERIOD = false.
Hypothesis whitespace_no_word :
  forall c, is_whitespace c = true -> word_class c = false.

(** C4: for every text that contains at least one word character and every
    list of input spans, [fix_borders] returns, and for every span
    [(start', end', label)] it returns [text[start':end']] neither begins
    nor ends with a white space character; the assertion holds of it, and
    no run raises its [AssertionError]. *)
Theorem fix_borders_no_whitespace_at_ends (text : pystr)
        (ent_list : list ent) :
  has_word word_class text = true ->
  (forall fuel, fix_borders word_class fuel ent_list text
                <> Raise AssertionError)
  /\ exists ent_list_new,
       (exists fuel0, forall fuel, (fuel0 <= fuel)%nat ->
          fix_borders word_class fuel ent_list text = Ret ent_list_new)
       /\ Forall (fun e' =>
            let sub := slice text (ent_start e') (ent_end e') in
            begins_with_whitespace sub = false
            /\ ends_with_whitespace sub = false
            /\ assert_no_space text e' = Ret tt) ent_list_new.
Proof.
  intros Hw.
  assert (space_no_word : word_class SPACE = false)
    by (now apply whitespace_no_word).
  split; [intros fuel; now apply fix_borders_no_raise|].
  destruct (fix_borders_total word_class space_no_word period_no_word
              text Hw ent_list) as (out & Hc & Hrun).
  exists out. split; [exact Hrun|]. clear Hrun.
  induction Hc as [|e e' l l' H _ IH]; constructor; [|exact IH].
  destruct (corrected_no_space word_class space_no_word period_no_word
              text e e' H) as [Ns Ne].
  destruct H as (_ & Hs & He & Cs & Ce).
  destruct e' as [[a b] lab]. cbn [ent_start ent_end fst snd] in *.
  cbv zeta.
  assert (Ws : is_whitespace (char_at text a) = false).
  { destruct Cs as [Cs|Cs]; [|now rewrite Cs].
    destruct (is_whitespace (char_at text a)) eqn:E; [|reflexivity].
    apply whitespace_no_word in E. congruence. }
  assert (We : is_whitespace (char_at text (b - 1)) = false).
  { destruct Ce as [Ce|[Ce|Ce]]; [|now rewrite Ce|now rewrite Ce].
    destruct (is_whitespace (char_at text (b - 1))) eqn:E; [|reflexivity].
    apply whitespace_no_word in E. congruence. }
  split; [|split].
  - destruct (Z_lt_le_dec a b) as [Hlt|Hle].
    + now rewrite begins_with_whitespace_slice by lia.
    + now rewrite slice_empty by lia.
  - destruct (Z_lt_le_dec a b) as [Hlt|Hle].
    + now rewrite ends_with_whitespace_slice by lia.
    + now rewrite slice_empty by lia.
  - now apply assert_no_space_ok.
Qed.

End Whitespace.

(* ================================================================== *)
(** * Stable sorting *)
(* ================================================================== *)

Section SortFacts.

Variable K : Type.
Variable leb : K -> K -> bool.
Variable key : ent -> K.
Hypothesis leb_total : forall a b, leb a b = true \/ leb b a = true.
Hypothesis leb_trans :
  forall a b c, leb a b = true -> leb b c = true -> leb a c = true.

Lemma insert_stable_perm (x : ent) (l : list ent) :
  Permutation (insert_stable K leb key x l) (x :: l).
Proof.
  induction l as [|y l IH]; cbn; [reflexivity|].
  destruct (leb (key x) (key y)); [reflexivity|].
  rewrite IH. apply perm_swap.
Qed.

Lemma list_sort_perm (l : list ent) : Permutation (list_sort K leb key l) l.
Proof.
  induction l as [|x l IH]; cbn; [reflexivity|].
  rewrite insert_stable_perm. now constructor.
Qed.

(** Inserting in front of the equal keys keeps the order [R] that the list
    had among equal keys. *)
Lemma insert_stable_sorted (R : ent -> ent -> Prop) (x : ent) (l : list ent) :
  StronglySorted (by_key leb key R) l ->
  Forall (R x) l ->
  StronglySorted (by_key leb key R) (insert_stable K leb key x l).
Proof.
  induction l as [|y l IH]; intros Hs Hx; cbn.
  - constructor; constructor.
  - apply StronglySorted_inv in Hs as [Hs Hy].
    destruct (leb (key x) (key y)) eqn:E.
    + constructor; [constructor; assumption|].
      constructor.
      * split; [assumption|]. intros _. now inversion Hx.
      * inversion Hx as [|? ? _ Hxl]; subst.
        rewrite Forall_forall in *. intros z Hz.
        destruct (Hy z Hz) as [Hyz _].
        split; [eapply leb_trans; eassumption|]. intros _. now apply Hxl.
    + inversion Hx as [|? ? _ Hxl]; subst.
      constructor; [now apply IH|].
      rewrite Forall_forall in *. intros z Hz.
      apply (Permutation_in _ (insert_stable_perm x l)) in Hz.
      destruct Hz as [<-|Hz]; [|now apply Hy].
      split; [destruct (leb_total (key y) (key x)); congruence|].
      congruence.
Qed.

Lemma list_sort_sorted (R : ent -> ent -> Prop) (l : list ent) :
  StronglySorted R l ->
  StronglySorted (by_key leb key R) (list_sort K leb key l).
Proof.
  induction l as [|x l IH]; intros Hs; cbn; [constructor|].
  apply StronglySorted_inv in Hs as [Hs Hx].
  apply insert_stable_sorted; [now apply IH|].
  eapply Permutation_Forall; [|exact Hx].
  symmetry. apply list_sort_perm.
Qed.

End SortFacts.

Lemma sorted_trivially (l : list ent) :
  StronglySorted (fun _ _ => True) l.
Proof.
  induction l; constructor; [assumption|].
  now apply Forall_forall.
Qed.

(** A list without repetition that is sorted for an antisymmetric order is
    determined by its elements. *)
Lemma sorted_unique (R : ent -> ent -> Prop) :
  (forall x y, R x y -> R y x -> x = y) ->
  forall l1 l2,
    StronglySorted R l1 -> StronglySorted R l2 ->
    NoDup l1 -> NoDup l2 ->
    (forall x, In x l1 <-> In x l2) ->
    l1 = l2.
Proof.
  intros Hanti. induction l1 as [|a l1 IH]; intros l2 S1 S2 N1 N2 Hin.
  - destruct l2 as [|b l2]; [reflexivity|].
    destruct (proj2 (Hin b) (or_introl eq_refl)).
  - destruct l2 as [|b l2]; [destruct (proj1 (Hin a) (or_introl eq_refl))|].
    apply StronglySorted_inv in S1 as [S1 F1].
    apply StronglySorted_inv in S2 as [S2 F2].
    rewrite Forall_forall in F1, F2.
    inversion N1 as [|? ? Na N1']; subst.
    inversion N2 as [|? ? Nb N2']; subst.
    assert (a = b) as <-.
    { destruct (proj1 (Hin a) (or_introl eq_refl)) as [E|Ha]; [now symmetry|].
      destruct (proj2 (Hin b) (or_introl eq_refl)) as [E|Hb]; [assumption|].
      apply Hanti; [now apply F1 | now apply F2]. }
    f_equal. apply IH; try assumption.
    intros x. split; intros Hx.
    + destruct (proj1 (Hin x) (or_intror Hx)) as [E|H]; [|assumption].
      subst x. contradiction.
    + destruct (proj2 (Hin x) (or_intror Hx)) as [E|H]; [|assumption].
      subst x. contradiction.
Qed.

Lemma sorted_weaken (R R' : ent -> ent -> Prop) (l : list ent) :
  (forall x y, In x l -> In y l -> x <> y -> R x y -> R' x y) ->
  NoDup l -> StronglySorted R l -> StronglySorted R' l.
Proof.
  induction l as [|a l IH]; intros Himp N S; [constructor|].
  apply StronglySorted_inv in S as [S F].
  inversion N as [|? ? Na N']; subst.
  constructor.
  - apply IH; try assumption.
    intros x y Hx Hy. apply Himp; now right.
  - rewrite Forall_forall in *. intros y Hy.
    apply Himp; [now left | now right | | now apply F].
    intros ->. contradiction.
Qed.

(** The order on strings. *)
Lemma str_leb_total (a b : pystr) : str_leb a b = true \/ str_leb b a = true.
Proof.
  revert b. induction a as [|x a IH]; intros [|y b]; cbn; auto.
  destruct (N.ltb_spec x y), (N.ltb_spec y x); auto; lia.
Qed.

Lemma str_leb_trans (a b c : pystr) :
  str_leb a b = true -> str_leb b c = true -> str_leb a c = true.
Proof.
  revert b c. induction a as [|x a IH]; intros [|y b] [|z c]; cbn; auto;
    try discriminate.
  destruct (N.ltb_spec x y), (N.ltb_spec y x), (N.ltb_spec y z),
    (N.ltb_spec z y), (N.ltb_spec x z), (N.ltb_spec z x);
    auto; try discriminate; try lia.
  apply IH.
Qed.

Lemma str_leb_antisym (a b : pystr) :
  str_leb a b = true -> str_leb b a = true -> a = b.
Proof.
  revert b. induction a as [|x a IH]; intros [|y b]; cbn; auto;
    try discriminate.
  destruct (N.ltb_spec x y), (N.ltb_spec y x);
    try discriminate; try lia.
  intros H1 H2. f_equal; [lia | now apply IH].
Qed.

Lemma Z_leb_total (a b : Z) : (a <=? b) = true \/ (b <=? a) = true.
Proof. rewrite !Z.leb_le. lia. Qed.

Lemma Z_leb_trans (a b c : Z) :
  (a <=? b) = true -> (b <=? c) = true -> (a <=? c) = true.
Proof. rewrite !Z.leb_le. lia. Qed.

(** The order of three sorts, made explicit. *)
Lemma ent_le_antisym (x y : ent) : ent_le x y -> ent_le y x -> x = y.
Proof.
  destruct x as [[a b] l], y as [[a' b'] l'].
  unfold ent_le, by_key. cbn [ent_start ent_end ent_label fst snd].
  intros (H1 & H2) (H1' & H2').
  destruct (H2 H1') as (H3 & H4). destruct (H2' H1) as (H3' & H4').
  destruct (H4 H3') as (H5 & _). destruct (H4' H3) as (H5' & _).
  apply Z.leb_le in H1, H1', H3, H3'.
  repeat f_equal; try lia. now apply str_leb_antisym.
Qed.

Lemma ent_le_lt (x y : ent) : ent_le x y -> x <> y -> ent_lt x y.
Proof.
  destruct x as [[a b] l], y as [[a' b'] l'].
  unfold ent_le, ent_lt, str_lt, by_key.
  cbn [ent_start ent_end ent_label fst snd].
  intros (H1 & H2) Hne. apply Z.leb_le in H1.
  destruct (Z.eq_dec a a') as [->|Ha]; [right|left; lia].
  split; [reflexivity|].
  destruct (H2 (Z.leb_refl _)) as (H3 & H4). apply Z.leb_le in H3.
  destruct (Z.eq_dec b b') as [->|Hb]; [right|left; lia].
  split; [reflexivity|].
  destruct (H4 (Z.leb_refl _)) as (H5 & _).
  split; [assumption|]. congruence.
Qed.

(* ================================================================== *)
(** * deduplicate *)
(* ================================================================== *)

Section DeduplicateProperties.

Variable set_iteration : list ent -> list ent.
Hypothesis set_iteration_enumerates : enumerates set_iteration.

Lemma deduplicate_perm (l : list ent) :
  Permutation (deduplicate set_iteration l) (set_iteration l).
Proof.
  unfold deduplicate. now rewrite !list_sort_perm.
Qed.

Lemma deduplicate_NoDup (l : list ent) : NoDup (deduplicate set_iteration l).
Proof.
  eapply Permutation_NoDup; [symmetry; apply deduplicate_perm|].
  apply set_iteration_enumerates.
Qed.

Lemma deduplicate_In (l : list ent) (e : ent) :
  In e (deduplicate set_iteration l) <-> In e l.
Proof.
  rewrite <- (proj2 (set_iteration_enumerates l) e). split.
  - apply Permutation_in, deduplicate_perm.
  - apply Permutation_in. symmetry. apply deduplicate_perm.
Qed.

Lemma deduplicate_sorted (l : list ent) :
  StronglySorted ent_le (deduplicate set_iteration l).
Proof.
  unfold deduplicate, ent_le.
  apply list_sort_sorted; [exact Z_leb_total | exact Z_leb_trans|].
  apply list_sort_sorted; [exact Z_leb_total | exact Z_leb_trans|].
  apply list_sort_sorted; [exact str_leb_total | exact str_leb_trans|].
  apply sorted_trivially.
Qed.

(** The result is the one sorted list of the distinct elements, whatever
    the order in which the set yields them. *)
Lemma deduplicate_canonical (l out : list ent) :
  NoDup out -> StronglySorted ent_le out ->
  (forall e, In e out <-> In e l) ->
  deduplicate set_iteration l = out.
Proof.
  intros N S Hin. apply (sorted_unique ent_le ent_le_antisym).
  - apply deduplicate_sorted.
  - assumption.
  - apply deduplicate_NoDup.
  - assumption.
  - intros e. rewrite deduplicate_In. symmetry. apply Hin.
Qed.

(** C8: [deduplicate] returns exactly the distinct tuples of its input, in
    the order start ascending, then end ascending, then label ascending,
    whatever the order in which the set yields them; the two examples of the
    specification. *)
Theorem deduplicate_distinct_sorted (ent_list : list ent) :
  NoDup (deduplicate set_iteration ent_list)
  /\ (forall e, In e (deduplicate set_iteration ent_list) <-> In e ent_list)
  /\ StronglySorted ent_lt (deduplicate set_iteration ent_list)
  /\ deduplicate set_iteration [(5, 8, py "B"); (0, 3, py "A")]
     = [(0, 3, py "A"); (5, 8, py "B")]
  /\ deduplicate set_iteration [(0, 3, py "A"); (0, 3, py "A")]
     = [(0, 3, py "A")].
Proof.
  split; [apply deduplicate_NoDup|].
  split; [apply deduplicate_In|].
  split; [|split].
  - apply (sorted_weaken ent_le).
    + intros x y _ _ Hne Hle. now apply ent_le_lt.
    + apply deduplicate_NoDup.
    + apply deduplicate_sorted.
  - apply deduplicate_canonical.
    + constructor; [cbn; intros [E|[]]; discriminate|].
      constructor; [intros []|constructor].
    + constructor; [constructor; [constructor|constructor]|].
      constructor; [|constructor].
      unfold ent_le, by_key. cbn. split; [reflexivity | discriminate].
    + intros e. cbn. tauto.
  - apply deduplicate_canonical.
    + constructor; [intros []|constructor].
    + constructor; [constructor|constructor].
    + intros e. cbn. tauto.
Qed.

(** C9: [deduplicate] is idempotent, and gives the same list for every
    permutation of a span list. *)
Theorem deduplicate_idempotent_order_normalizing (x : list ent) :
  deduplicate set_iteration (deduplicate set_iteration x)
  = deduplicate set_iteration x
  /\ forall y, Permutation x y ->
       deduplicate set_iteration y = deduplicate set_iteration x.
Proof.
  split.
  - apply deduplicate_canonical.
    + apply deduplicate_NoDup.
    + apply deduplicate_sorted.
    + intros e. reflexivity.
  - intros y Hxy. apply deduplicate_canonical.
    + apply deduplicate_NoDup.
    + apply deduplicate_sorted.
    + intros e. rewrite deduplicate_In. split.
      * apply Permutation_in. assumption.
      * apply Permutation_in. now symmetry.
Qed.

End DeduplicateProperties.

Lemma reversed_set_enumerates : enumerates reversed_set.
Proof.
  intros l. unfold reversed_set. split.
  - apply NoDup_rev, NoDup_nodup.
  - intros e. rewrite <- in_rev. apply nodup_In.
Qed.

(* ================================================================== *)
(** * remove_ner_noise *)
(* ================================================================== *)

Lemma count_nonneg (s : pystr) (c : char) : 0 <= count s c.
Proof.
  induction s as [|x s IH]; cbn; [lia|]. destruct (char_eqb x c); lia.
Qed.

(** What follows a match holds no further match. *)
Lemma sub_noise_after_match (s : pystr) :
  at_dollar (skip_digits s) = true ->
  sub_noise (skip_digits s) = skip_digits s.
Proof.
  destruct (skip_digits s) as [|c [|d t]]; cbn; try reflexivity;
    try discriminate.
  intros H. apply char_eqb_eq in H. now subst c.
Qed.

Lemma sub_noise_no_hyphen (s : pystr) :
  count s HYPHEN = 0 -> sub_noise s = s.
Proof.
  induction s as [|c s IH]; cbn [count sub_noise]; [reflexivity|].
  pose proof (count_nonneg s HYPHEN). intros H0.
  destruct (char_eqb c HYPHEN); [lia|].
  cbn [andb]. f_equal. apply IH. lia.
Qed.

Lemma sub_noise_idempotent (s : pystr) :
  count s HYPHEN <= 1 -> sub_noise (sub_noise s) = sub_noise s.
Proof.
  induction s as [|c s IH]; cbn [count sub_noise]; [reflexivity|].
  pose proof (count_nonneg s HYPHEN). intros H1.
  destruct (char_eqb c HYPHEN) eqn:Hc; cbn [andb].
  - destruct (at_dollar (skip_digits s)) eqn:Hd.
    + now apply sub_noise_after_match.
    + rewrite (sub_noise_no_hyphen s) by lia.
      cbn [sub_noise]. rewrite Hc, Hd. cbn [andb].
      rewrite (sub_noise_no_hyphen s) by lia. reflexivity.
  - cbn [sub_noise]. rewrite Hc. cbn [andb]. f_equal. apply IH. lia.
Qed.

(** The examples of the specification. *)
Example sub_noise_examples :
  sub_noise (py "PER-1337") = py "PER"
  /\ sub_noise (py "PER-") = py "PER"
  /\ sub_noise (py "PER") = py "PER"
  /\ sub_noise (py "PER-42") = py "PER"
  /\ sub_noise (py "LOC") = py "LOC".
Proof. repeat split. Qed.

(* ================================================================== *)
(** * The word class matters on the characters of the text only *)
(* ================================================================== *)

Section Classes.

Variables word_class word_class' : char -> bool.

Lemma border_ext (text : pystr) (i_is_start : bool) (p : Z) :
  (forall c, In c text -> word_class c = word_class' c) ->
  border word_class text i_is_start p = border word_class' text i_is_start p.
Proof.
  intros Hc. unfold border.
  destruct ((0 <=? p - 1) && (p <? len text)) eqn:G; [|reflexivity].
  apply andb_true_iff in G as [G1 G2].
  apply Z.leb_le in G1. apply Z.ltb_lt in G2. cbn [andb].
  unfold is_border, is_not_char, is_char.
  rewrite !(Hc (char_at text (p - 1))) by (apply char_at_In; lia).
  rewrite !(Hc (char_at text p)) by (apply char_at_In; lia).
  reflexivity.
Qed.

Lemma search_ext (text : pystr) (i_is_start : bool) :
  (forall c, In c text -> word_class c = word_class' c) ->
  forall fuel c st,
    search word_class fuel text i_is_start c st
    = search word_class' fuel text i_is_start c st.
Proof.
  intros Hc. induction fuel as [|fuel IH]; intros c st; [reflexivity|].
  rewrite !search_step, (border_ext _ _ _ Hc), IH. reflexivity.
Qed.

Lemma fix_char_index_ext (fuel : nat) (text : pystr) (i : Z)
      (i_is_start : bool) :
  (forall c, In c (pad text) -> word_class c = word_class' c) ->
  fix_char_index word_class fuel text i i_is_start
  = fix_char_index word_class' fuel text i i_is_start.
Proof.
  intros Hc. unfold fix_char_index. now rewrite (search_ext _ _ Hc).
Qed.

Lemma fix_borders_ext (fuel : nat) (text : pystr) :
  (forall c, In c (pad text) -> word_class c = word_class' c) ->
  forall ent_list,
    fix_borders word_class fuel ent_list text
    = fix_borders word_class' fuel ent_list text.
Proof.
  intros Hc. unfold fix_borders.
  induction ent_list as [|e rest IH]; cbn [fix_borders_main]; [reflexivity|].
  unfold fix_ent. rewrite !(fix_char_index_ext _ _ _ _ Hc), IH.
  reflexivity.
Qed.

End Classes.

(** On an ASCII text every word class that has the ASCII word characters of
    Python's [[\w\d]] gives the runs of [ascii_class]. *)
Lemma fix_borders_ascii_text (word_class : char -> bool) (fuel : nat)
      (text : pystr) (ent_list : list ent) :
  (forall c, (c < 128)%N -> word_class c = ascii_word c) ->
  forallb (fun c => (c <? 128)%N) text = true ->
  fix_borders word_class fuel ent_list text
  = fix_borders ascii_class fuel ent_list text.
Proof.
  intros Hw Ht. apply fix_borders_ext. intros c Hc.
  assert (Hlt : (c < 128)%N).
  { unfold pad in Hc. destruct Hc as [<-|Hc]; [reflexivity|].
    apply in_app_or in Hc as [Hc|[<-|[]]]; [|reflexivity].
    rewrite forallb_forall in Ht. apply N.ltb_lt. now apply Ht. }
  unfold ascii_class. rewrite (Hw c Hlt).
  apply N.ltb_lt in Hlt. now rewrite Hlt.
Qed.

(* ================================================================== *)
(** * Concrete runs *)
(* ================================================================== *)

(** C1, on a text of two spaces: the index 1 is within the bounds, the text
    has no word character, and [fix_char_index] never returns. *)
Lemma fix_char_index_diverges_without_word :
  has_word ascii_class (py "  ") = false
  /\ 0 <= 1 <= len (py "  ")
  /\ diverges (fun fuel => fix_char_index ascii_class fuel (py "  ") 1 true)
  /\ diverges (fun fuel => fix_char_index ascii_class fuel (py "  ") 1 false).
Proof.
  split; [reflexivity|]. split; [cbn; lia|].
  split; apply fix_char_index_no_word; reflexivity.
Qed.

(** C1, as amended, on the text ["ab   cd"] and the index 3. *)
Lemma fix_char_index_terminates_witness :
  exists r,
    0 <= r <= len (py "ab   cd")
    /\ forall fuel, (2 * List.length (py "ab   cd") + 1 <= fuel)%nat ->
         fix_char_index ascii_class fuel (py "ab   cd") 3 true = Ret r.
Proof.
  apply (fix_char_index_terminates ascii_class ascii_class_space
           ascii_class_period (py "ab   cd") 3 true).
  - reflexivity.
  - cbn. lia.
Defined.



(** C4, on the text ["ab   cd"] and the span [(3, 4)]. *)
Lemma fix_borders_no_whitespace_at_ends_witness :
  (forall fuel, fix_borders ascii_class fuel [(3, 4, py "X")] (py "ab   cd")
                <> Raise AssertionError)
  /\ exists ent_list_new,
       (exists fuel0, forall fuel, (fuel0 <= fuel)%nat ->
          fix_borders ascii_class fuel [(3, 4, py "X")] (py "ab   cd")
          = Ret ent_list_new)
       /\ Forall (fun e' =>
            let sub := slice (py "ab   cd") (ent_start e') (ent_end e') in
            begins_with_whitespace sub = false
            /\ ends_with_whitespace sub = false
            /\ assert_no_space (py "ab   cd") e' = Ret tt) ent_list_new.
Proof.
  apply (fix_borders_no_whitespace_at_ends ascii_class ascii_class_period
           ascii_class_whitespace (py "ab   cd") [(3, 4, py "X")]).
  reflexivity.
Defined.

(** C5, on the label ["PER-1-2"]: only the last group is removed, and the
    second pass removes one more. *)
Lemma remove_ner_noise_twice_differs :
  remove_ner_noise [(0, 3, py "PER-1-2")] = [(0, 3, py "PER-1")]
  /\ remove_ner_noise (remove_ner_noise [(0, 3, py "PER-1-2")])
     = [(0, 3, py "PER")]
  /\ remove_ner_noise (remove_ner_noise [(0, 3, py "PER-1-2")])
     <> remove_ner_noise [(0, 3, py "PER-1-2")].
Proof. repeat split. discriminate. Qed.

(** C6, on the text ["ab   cd"] and the span [(3, 4)], a space between the
    two words: the start moves right to 5 and the end moves left to 2. *)
Lemma fix_borders_start_after_end :
  has_word ascii_class (py "ab   cd") = true
  /\ fix_char_index ascii_class 5 (py "ab   cd") 3 true = Ret 5
  /\ fix_char_index ascii_class 5 (py "ab   cd") 4 false = Ret 2
  /\ fix_borders ascii_class 5 [(3, 4, py "X")] (py "ab   cd")
     = Ret [(5, 2, py "X")].
Proof. repeat split. Qed.

(** C6, as amended, on the same text and span. *)
Lemma fix_borders_offsets_inside_witness :
  exists ent_list_new,
    (exists fuel0, forall fuel, (fuel0 <= fuel)%nat ->
       fix_borders ascii_class fuel [(3, 4, py "X")] (py "ab   cd")
       = Ret ent_list_new)
    /\ Forall (fun e' => 0 <= ent_start e' <= len (py "ab   cd") - 1
                         /\ 1 <= ent_end e' <= len (py "ab   cd"))
         ent_list_new.
Proof.
  apply (fix_borders_offsets_inside ascii_class ascii_class_space
           ascii_class_period (py "ab   cd") [(3, 4, py "X")]).
  reflexivity.
Defined.

(** C7, on the text ["ab"] and the span [(7, -3)], out of the bounds and
    with its start after its end: no error, the offsets are moved. *)
Lemma fix_borders_moves_malformed_span :
  fix_borders ascii_class 14 [(7, -3, py "X")] (py "ab")
  = Ret [(0, 2, py "X")].
Proof. reflexivity. Qed.

(** C8, with a set that yields its elements last seen first. *)
Lemma deduplicate_distinct_sorted_witness :
  NoDup (deduplicate reversed_set [(5, 8, py "B"); (0, 3, py "A");
                                   (5, 8, py "B")])
  /\ (forall e,
        In e (deduplicate reversed_set [(5, 8, py "B"); (0, 3, py "A");
                                        (5, 8, py "B")])
        <-> In e [(5, 8, py "B"); (0, 3, py "A"); (5, 8, py "B")])
  /\ StronglySorted ent_lt
       (deduplicate reversed_set [(5, 8, py "B"); (0, 3, py "A");
                                  (5, 8, py "B")])
  /\ deduplicate reversed_set [(5, 8, py "B"); (0, 3, py "A")]
     = [(0, 3, py "A"); (5, 8, py "B")]
  /\ deduplicate reversed_set [(0, 3, py "A"); (0, 3, py "A")]
     = [(0, 3, py "A")].
Proof.
  apply (deduplicate_distinct_sorted reversed_set reversed_set_enumerates
           [(5, 8, py "B"); (0, 3, py "A"); (5, 8, py "B")]).
Defined.

(** C9, with the same set. *)
Lemma deduplicate_idempotent_order_normalizing_witness :
  deduplicate reversed_set
    (deduplicate reversed_set [(5, 8, py "B"); (0, 3, py "A")])
  = deduplicate reversed_set [(5, 8, py "B"); (0, 3, py "A")]
  /\ forall y, Permutation [(5, 8, py "B"); (0, 3, py "A")] y ->
       deduplicate reversed_set y
       = deduplicate reversed_set [(5, 8, py "B"); (0, 3, py "A")].
Proof.
  apply (deduplicate_idempotent_order_normalizing reversed_set
           reversed_set_enumerates [(5, 8, py "B"); (0, 3, py "A")]).
Defined.

(** C10, on the text ["ab cd"] and the index 4. *)
Lemma fix_char_index_start_on_word_witness :
  0 <= 3 <= len (py "ab cd") - 1
  /\ (exists c, index (py "ab cd") 3 = Ret c /\ is_char ascii_class c = true)
  /\ (exists i_corrected,
        search ascii_class 5 (pad (py "ab cd")) true (4 + 1) (-1)
        = Ret i_corrected
        /\ abbreviation_period (pad (py "ab cd")) i_corrected = Ret false
        /\ 3 = i_corrected - 1).
Proof.
  apply (fix_char_index_start_on_word ascii_class ascii_class_space
           ascii_class_period 5 (py "ab cd") 4 3).
  reflexivity.
Defined.

(* ================================================================== *)
(** * The order in which the loop probes *)
(* ================================================================== *)

Section SearchOrder.

Variable word_class : char -> bool.
Variable text : pystr.
Variable i_is_start : bool.

(** The loop stays on its track, and what it has left behind holds no
    border. *)
Lemma search_track (st0 i : Z) (fuel : nat) :
  forall c st p,
    on_track st0 i c st ->
    (forall q, probed c st q -> q <> c ->
               border word_class text i_is_start q = false) ->
    search word_class fuel text i_is_start c st = Ret p ->
    exists st',
      on_track st0 i p st'
      /\ forall q, probed p st' q -> q <> p ->
                   border word_class text i_is_start q = false.
Proof.
  induction fuel as [|fuel IH]; intros c st p Ht Hb H; [discriminate|].
  rewrite search_step in H.
  destruct (border word_class text i_is_start c) eqn:Bc.
  - inversion H; subst p. exists st. split; assumption.
  - apply IH in H; [assumption| |].
    + unfold on_track in *. destruct (0 <? st) eqn:E;
        [apply Z.ltb_lt in E | apply Z.ltb_ge in E]; lia.
    + intros q Hq Hne. destruct (Z.eq_dec q c) as [->|Hc]; [assumption|].
      apply Hb; [|assumption].
      unfold probed in *. destruct (0 <? st) eqn:E;
        [apply Z.ltb_lt in E | apply Z.ltb_ge in E]; lia.
Qed.

Lemma search_from_start (st0 i : Z) (fuel : nat) (p : Z) :
  st0 = -1 \/ st0 = 1 ->
  search word_class fuel text i_is_start i st0 = Ret p ->
  exists st',
    on_track st0 i p st'
    /\ forall q, probed p st' q -> q <> p ->
                 border word_class text i_is_start q = false.
Proof.
  intros Hst H. apply (search_track st0 i fuel i st0 p); [| |assumption].
  - unfold on_track. lia.
  - intros q Hq Hne. unfold probed in Hq. lia.
Qed.

(** Every position nearer to the start than the border found is no
    border. *)
Lemma search_nearest (st0 i : Z) (fuel : nat) (p q : Z) :
  st0 = -1 \/ st0 = 1 ->
  search word_class fuel text i_is_start i st0 = Ret p ->
  Z.abs (q - i) < Z.abs (p - i) ->
  border word_class text i_is_start q = false.
Proof.
  intros Hst H Hq.
  destruct (search_from_start st0 i fuel p Hst H) as (st' & Ht & Hb).
  apply Hb; unfold on_track, probed in *; lia.
Qed.

(** At the same distance, the side of the first step has been probed
    first. *)
Lemma search_bias (st0 i : Z) (fuel : nat) (p q : Z) :
  st0 = -1 \/ st0 = 1 ->
  search word_class fuel text i_is_start i st0 = Ret p ->
  Z.abs (q - i) = Z.abs (p - i) ->
  (st0 = -1 /\ q < p) \/ (st0 = 1 /\ p < q) ->
  border word_class text i_is_start q = false.
Proof.
  intros Hst H Hq Hside.
  destruct (search_from_start st0 i fuel p Hst H) as (st' & Ht & Hb).
  apply Hb; unfold on_track, probed in *; lia.
Qed.

End SearchOrder.

Section Nearest.

Variable word_class : char -> bool.

(** X1: the border that [fix_char_index] stops at is a nearest one: no
    position nearer to the index is a border of the mode.  The result is
    that border, or the position after it under the abbreviation rule. *)
Theorem fix_char_index_nearest_border (fuel : nat) (text : pystr) (i : Z)
        (i_is_start : bool) (r : Z) :
  fix_char_index word_class fuel text i i_is_start = Ret r ->
  exists b period,
    probe word_class (pad text) i_is_start (b + 1) = Ret true
    /\ abbreviation_period (pad text) (b + 1) = Ret period
    /\ r = (if period then b + 1 else b)
    /\ forall j, Z.abs (j - i) < Z.abs (b - i) ->
         probe word_class (pad text) i_is_start (j + 1) = Ret false.
Proof.
  intros H. apply fix_char_index_inv in H as (p & Hs & B & ->).
  exists (p - 1), (abbreviation (pad text) p).
  replace (p - 1 + 1) with p by lia.
  split; [now rewrite probe_border, B|].
  split.
  - apply abbreviation_period_inside. unfold border in B.
    apply andb_true_iff in B as [B _]. apply andb_true_iff in B as [B1 B2].
    apply Z.leb_le in B1. apply Z.ltb_lt in B2. lia.
  - split; [destruct (abbreviation (pad text) p); lia|].
    intros j Hj. rewrite probe_border. f_equal.
    apply (search_nearest word_class (pad text) i_is_start
             (if i_is_start then -1 else 1) (i + 1) fuel p (j + 1));
      [destruct i_is_start; auto | assumption | lia].
Qed.

(** X2: the bias of the search.  In START mode a border found to the right
    of the index has no START border at the same distance to the left; in
    END mode a border found to the left has no END border at the same
    distance to the right. *)
Theorem fix_char_index_bias (fuel : nat) (text : pystr) (i : Z)
        (i_is_start : bool) (r : Z) :
  fix_char_index word_class fuel text i i_is_start = Ret r ->
  exists b,
    probe word_class (pad text) i_is_start (b + 1) = Ret true
    /\ (r = b \/ r = b + 1)
    /\ forall j, Z.abs (j - i) = Z.abs (b - i) ->
         (if i_is_start then j < b else b < j) ->
         probe word_class (pad text) i_is_start (j + 1) = Ret false.
Proof.
  intros H. apply fix_char_index_inv in H as (p & Hs & B & ->).
  exists (p - 1). replace (p - 1 + 1) with p by lia.
  split; [now rewrite probe_border, B|].
  split; [destruct (abbreviation (pad text) p); lia|].
  intros j Hj Hside. rewrite probe_border. f_equal.
  apply (search_bias word_class (pad text) i_is_start
           (if i_is_start then -1 else 1) (i + 1) fuel p (j + 1));
    [destruct i_is_start; auto | assumption | lia |].
  destruct i_is_start; [left | right]; split; lia.
Qed.

Hypothesis space_no_word : word_class SPACE = false.
Hypothesis period_no_word : word_class PERIOD = false.

(** X3: whenever [fix_char_index] returns [r] in END mode, [r] lies in
    [1 .. len(text)], and [text[r - 1]] is a word character, or it is a
    period that follows a word character. *)
Theorem fix_char_index_end_after_word (fuel : nat) (text : pystr) (i r : Z) :
  fix_char_index word_class fuel text i false = Ret r ->
  1 <= r <= len text
  /\ exists c,
       index text (r - 1) = Ret c
       /\ (is_char word_class c = true
           \/ (c = PERIOD /\ 2 <= r
               /\ exists c', index text (r - 2) = Ret c'
                             /\ is_char word_class c' = true)).
Proof.
  intros H. apply fix_char_index_inv in H as (p & _ & B & ->).
  pose proof (end_border_result word_class space_no_word text p B)
    as [Hr Hc].
  pose proof (border_end_inv word_class space_no_word text p B)
    as (Hp & Hw & _).
  cbv zeta in Hr, Hc. split; [assumption|].
  destruct (abbreviation (pad text) p) eqn:A.
  - exists (char_at text (p + 1 - 1 - 1)).
    split; [apply index_char_at; lia|]. right.
    destruct Hc as [Hc|Hc].
    + unfold abbreviation in A. apply andb_true_iff in A as [A _].
      apply char_eqb_eq in A.
      assert (p <> len text + 1).
      { intros E. rewrite E, char_at_pad_last in A. discriminate. }
      rewrite char_at_pad in A by lia.
      replace (p + 1 - 1 - 1) with (p - 1) in * by lia. congruence.
    + split; [assumption|]. split; [lia|].
      exists (char_at text (p - 2)).
      replace (p + 1 - 1 - 2) with (p - 2) by lia.
      split; [apply index_char_at; lia | assumption].
  - exists (char_at text (p - 1 - 1)).
    split; [apply index_char_at; lia|]. left.
    replace (p - 1 - 1) with (p - 2) by lia. assumption.
Qed.

(** X4: [fix_char_index] returns exactly on the texts that hold a word
    character, whatever the index and the mode. *)
Theorem fix_char_index_returns_iff_word (text : pystr) (i : Z)
        (i_is_start : bool) :
  (exists fuel r, fix_char_index word_class fuel text i i_is_start = Ret r)
  <-> has_word word_class text = true.
Proof.
  split.
  - intros (fuel & r & H).
    destruct (has_word word_class text) eqn:Hw; [reflexivity|].
    rewrite (fix_char_index_no_word word_class space_no_word
               text i i_is_start Hw fuel) in H.
    discriminate.
  - intros Hw. pose proof (len_nonneg text) as Hlen.
    destruct (fix_char_index_total word_class space_no_word text i
                i_is_start (Z.to_nat (Z.abs i + len text + 1)) Hw)
      as [r Hr]; [intros p Hp; lia|].
    exists (2 * Z.to_nat (Z.abs i + len text + 1) + 1)%nat, r.
    apply Hr. lia.
Qed.

End Nearest.

(* ================================================================== *)
(** * fix_parenthesis on any offsets *)
(* ================================================================== *)

Lemma index_inside (s : pystr) (i : Z) :
  - len s <= i < len s -> exists c, index s i = Ret c.
Proof.
  intros Hi. unfold index.
  set (j := if i <? 0 then i + len s else i).
  assert (Hj : 0 <= j < len s).
  { subst j. destruct (i <? 0) eqn:E;
      [apply Z.ltb_lt in E | apply Z.ltb_ge in E]; lia. }
  replace ((0 <=? j) && (j <? len s)) with true
    by (symmetry; apply andb_true_iff; split;
        [apply Z.leb_le | apply Z.ltb_lt]; lia).
  destruct (nth_error s (Z.to_nat j)) as [c|] eqn:Hn; [eauto|].
  apply nth_error_None in Hn. unfold len in Hj. lia.
Qed.

Lemma index_outside (s : pystr) (i : Z) :
  i < - len s \/ len s <= i -> index s i = Raise IndexError.
Proof.
  intros Hi. unfold index.
  set (j := if i <? 0 then i + len s else i).
  assert (Hj : j < 0 \/ len s <= j).
  { pose proof (len_nonneg s). subst j. destruct (i <? 0) eqn:E;
      [apply Z.ltb_lt in E | apply Z.ltb_ge in E]; lia. }
  replace ((0 <=? j) && (j <? len s)) with false; [reflexivity|].
  symmetry. apply andb_false_iff.
  destruct Hj; [left; apply Z.leb_gt | right; apply Z.ltb_ge]; lia.
Qed.



Lemma left_parenthesis_cases (text : pystr) (i_a i_b : Z) :
  (len text < i_a -> left_parenthesis text i_a i_b = Raise IndexError)
  /\ (i_a <= len text -> exists l, left_parenthesis text i_a i_b = Ret l).
Proof.
  pose proof (len_nonneg text) as Hlen. unfold left_parenthesis. split.
  - intros Ha. replace (0 <? i_a) with true by (symmetry; apply Z.ltb_lt; lia).
    rewrite index_outside by lia. reflexivity.
  - intros Ha. destruct (0 <? i_a) eqn:G; [|eauto].
    apply Z.ltb_lt in G.
    destruct (index_inside text (i_a - 1)) as [c Hc]; [lia|].
    rewrite Hc. cbn [bind]. eauto.
Qed.

Lemma right_parenthesis_cases (text : pystr) (i_a i_b : Z) :
  (i_b < - len text /\ i_b < len text - 1 ->
   right_parenthesis text i_a i_b = Raise IndexError)
  /\ (- len text <= i_b \/ len text - 1 <= i_b ->
      exists r, right_parenthesis text i_a i_b = Ret r).
Proof.
  pose proof (len_nonneg text) as Hlen. unfold right_parenthesis. split.
  - intros [Hb Hg].
    replace (i_b <? len text - 1) with true
      by (symmetry; apply Z.ltb_lt; lia).
    rewrite index_outside by lia. reflexivity.
  - intros Hb. destruct (i_b <? len text - 1) eqn:G; [|eauto].
    apply Z.ltb_lt in G.
    destruct (index_inside text i_b) as [c Hc]; [lia|].
    rewrite Hc. cbn [bind]. eauto.
Qed.

(** X5: [fix_parenthesis] raises [IndexError] exactly when the start lies
    after the end of the text, or the end lies before [-len(text)] (and
    before [len(text) - 1], which matters for the empty text only); on all
    other offsets, negative ones included, it returns. *)
Theorem fix_parenthesis_index_error (e : ent) (text : pystr) :
  (len text < ent_start e
   \/ (ent_end e < - len text /\ ent_end e < len text - 1)
   -> fix_parenthesis e text = Raise IndexError)
  /\ (ent_start e <= len text
      /\ (- len text <= ent_end e \/ len text - 1 <= ent_end e)
      -> exists e', fix_parenthesis e text = Ret e').
Proof.
  destruct (left_parenthesis_cases text (ent_start e) (ent_end e))
    as [L1 L2].
  destruct (right_parenthesis_cases text (ent_start e) (ent_end e))
    as [R1 R2].
  unfold fix_parenthesis. split.
  - intros Hc.
    destruct (Z_lt_le_dec (len text) (ent_start e)) as [Ha|Ha].
    + now rewrite L1.
    + destruct (L2 Ha) as [l Hl]. rewrite Hl. cbn [bind].
      destruct Hc as [Hc|Hc]; [lia|]. now rewrite R1.
  - intros [Ha Hb]. destruct (L2 Ha) as [l Hl]. destruct (R2 Hb) as [r Hr].
    rewrite Hl. cbn [bind]. rewrite Hr. cbn [bind]. eauto.
Qed.


(* ================================================================== *)
(** * fix_parenthesis and the Parenthesis Repair of the specification *)
(* ================================================================== *)








(** X7: [fix_borders] treats the spans one by one, in their order: the
    result for a list in two parts is the result for the first part followed
    by the result for the second one, and the run fails or stays unfinished
    as the first of the two that does. *)
Theorem fix_borders_app (word_class : char -> bool) (fuel : nat)
        (text : pystr) (l1 l2 : list ent) :
  fix_borders word_class fuel (l1 ++ l2) text
  = (out1 <- fix_borders word_class fuel l1 text ;;
     out2 <- fix_borders word_class fuel l2 text ;;
     Ret (out1 ++ out2)).
Proof.
  unfold fix_borders. induction l1 as [|e l1 IH]; cbn [app fix_borders_main].
  - cbn [bind]. now destruct (fix_borders_main word_class fuel l2 text).
  - destruct (fix_ent word_class fuel text e) as [e'| |]; cbn [bind];
      try reflexivity.
    rewrite IH.
    destruct (fix_borders_main word_class fuel l1 text) as [o1| |];
      cbn [bind]; try reflexivity.
    now destruct (fix_borders_main word_class fuel l2 text).
Qed.

(* ================================================================== *)
(** * The group that remove_ner_noise removes *)
(* ================================================================== *)

Lemma at_dollar_cases (s : pystr) :
  at_dollar s = true -> s = [] \/ s = [NEWLINE].
Proof.
  destruct s as [|c [|d t]]; cbn; intros H; try discriminate; [now left|].
  apply char_eqb_eq in H. subst c. now right.
Qed.

Lemma skip_digits_app (d t : pystr) :
  forallb is_digit d = true -> skip_digits (d ++ t) = skip_digits t.
Proof.
  induction d as [|c d IH]; cbn; [reflexivity|]. intros H.
  apply andb_true_iff in H as [Hc Hd]. rewrite Hc. now apply IH.
Qed.

Lemma skip_digits_split (s : pystr) :
  exists d, s = d ++ skip_digits s /\ forallb is_digit d = true.
Proof.
  induction s as [|c s (d & Hs & Hd)]; [now exists []|].
  cbn. destruct (is_digit c) eqn:Hc.
  - exists (c :: d). cbn. rewrite Hc, Hd. split; [now f_equal | reflexivity].
  - now exists [].
Qed.

(** A hyphen that other characters follow is not the start of a match seen
    from further left. *)
Lemma no_match_before_hyphen (p r : pystr) :
  at_dollar (skip_digits (p ++ HYPHEN :: r)) = false.
Proof.
  induction p as [|c p IH]; cbn.
  - now destruct r.
  - destruct (is_digit c); [exact IH|]. now destruct p.
Qed.

Lemma count_app (s t : pystr) (c : char) :
  count (s ++ t) c = count s c + count t c.
Proof.
  induction s as [|x s IH]; cbn; [reflexivity|]. rewrite IH. lia.
Qed.

Lemma count_digits_hyphen (d : pystr) :
  forallb is_digit d = true -> count d HYPHEN = 0.
Proof.
  induction d as [|c d IH]; cbn; [reflexivity|]. intros H.
  apply andb_true_iff in H as [Hc Hd]. rewrite (IH Hd).
  destruct (char_eqb c HYPHEN) eqn:E; [|reflexivity].
  apply char_eqb_eq in E. subst c. discriminate.
Qed.

Lemma sub_noise_group (p d t : pystr) :
  forallb is_digit d = true ->
  t = [] \/ t = [NEWLINE] ->
  sub_noise (p ++ HYPHEN :: d ++ t) = p ++ t.
Proof.
  intros Hd Ht. induction p as [|c p IH]; cbn [app sub_noise].
  - rewrite (skip_digits_app d t Hd).
    destruct Ht as [->| ->]; reflexivity.
  - rewrite no_match_before_hyphen, andb_false_r. now f_equal.
Qed.

Lemma sub_noise_cases (s : pystr) :
  sub_noise s = s
  \/ exists p d t,
       s = p ++ HYPHEN :: d ++ t
       /\ forallb is_digit d = true
       /\ (t = [] \/ t = [NEWLINE])
       /\ sub_noise s = p ++ t.
Proof.
  induction s as [|c s IH]; [now left|]. cbn [sub_noise].
  destruct (char_eqb c HYPHEN && at_dollar (skip_digits s)) eqn:M.
  - right. apply andb_true_iff in M as [Hc Hd].
    apply char_eqb_eq in Hc. subst c.
    destruct (skip_digits_split s) as (d & Hs & Hdig).
    exists [], d, (skip_digits s). cbn [app].
    split; [now f_equal|]. split; [assumption|].
    split; [now apply at_dollar_cases | reflexivity].
  - destruct IH as [IH|(p & d & t & Hs & Hd & Ht & Hr)].
    + left. now f_equal.
    + right. exists (c :: p), d, t. cbn [app].
      split; [now f_equal|]. split; [assumption|].
      split; [assumption | now f_equal].
Qed.

(** X8: a label that ends with a hyphen, digits, and nothing more but
    perhaps one newline, loses that hyphen and those digits, and nothing
    else. *)
Theorem sub_noise_removes_group (p d t : pystr) (i_a i_b : Z) :
  forallb is_digit d = true ->
  t = [] \/ t = [NEWLINE] ->
  sub_noise (p ++ HYPHEN :: d ++ t) = p ++ t
  /\ remove_ner_noise [(i_a, i_b, p ++ HYPHEN :: d ++ t)]
     = [(i_a, i_b, p ++ t)].
Proof.
  intros Hd Ht. pose proof (sub_noise_group p d t Hd Ht) as H.
  split; [exact H|]. cbn. now rewrite H.
Qed.

(** X9: every other label is unchanged: [re.sub] changes a label only by
    removing such a group at its end. *)
Theorem sub_noise_unchanged_or_group (s : pystr) :
  sub_noise s = s
  \/ exists p d t,
       s = p ++ HYPHEN :: d ++ t
       /\ forallb is_digit d = true
       /\ (t = [] \/ t = [NEWLINE])
       /\ sub_noise s = p ++ t.
Proof. exact (sub_noise_cases s). Qed.

(** Nothing of the form hyphen, digits ends with a newline. *)
Lemma group_no_newline_end (p p' d : pystr) :
  forallb is_digit d = true ->
  p ++ [NEWLINE] <> p' ++ HYPHEN :: d.
Proof.
  intros Hd E.
  destruct (exists_last (l := HYPHEN :: d)) as (l' & x & Hl); [discriminate|].
  rewrite Hl, app_assoc in E. apply app_inj_tail in E as [_ E]. subst x.
  destruct d as [|c d].
  - destruct l' as [|y [|z l']]; cbn in Hl; inversion Hl.
  - assert (Hin : In NEWLINE (c :: d)).
    { assert (Hin : In NEWLINE (HYPHEN :: c :: d))
        by (rewrite Hl; apply in_or_app; right; now left).
      destruct Hin as [Hin|Hin]; [discriminate | exact Hin]. }
    apply (proj1 (forallb_forall _ _) Hd) in Hin. discriminate.
Qed.

(** A second pass changes a label exactly when the label ends in two groups
    in a row. *)
Lemma sub_noise_twice_iff (s : pystr) :
  sub_noise (sub_noise s) = sub_noise s <-> ~ ends_in_two_groups s.
Proof.
  split.
  - intros Hidem (p & d1 & t1 & d2 & t2 & Hs & Hd1 & Hd2 & Ht).
    assert (Ht2 : t2 = [] \/ t2 = [NEWLINE]).
    { destruct t1 as [|x t1]; [exact Ht|]. destruct Ht as [Ht|Ht];
        [discriminate|]. cbn [app] in Ht. injection Ht as _ Ht'.
      apply app_eq_nil in Ht' as [_ Ht']. left. exact Ht'. }
    assert (E1 : s = (p ++ HYPHEN :: d1 ++ t1) ++ HYPHEN :: d2 ++ t2).
    { rewrite Hs, <- app_assoc. cbn [app]. now rewrite <- app_assoc. }
    assert (R1 : sub_noise s = p ++ HYPHEN :: d1 ++ (t1 ++ t2)).
    { rewrite E1, (sub_noise_group _ d2 t2 Hd2 Ht2), <- app_assoc.
      cbn [app]. now rewrite <- app_assoc. }
    rewrite R1, (sub_noise_group p d1 (t1 ++ t2) Hd1 Ht) in Hidem.
    apply app_inv_head in Hidem.
    apply (f_equal (@List.length char)) in Hidem.
    cbn [List.length] in Hidem. rewrite !length_app in Hidem. lia.
  - intros Hno.
    destruct (sub_noise_cases s) as [E|(p & d & t & Hs & Hd & Ht & Hr)];
      [now rewrite E|].
    rewrite Hr.
    destruct (sub_noise_cases (p ++ t))
      as [E|(p' & d' & t' & Hs' & Hd' & Ht' & _)]; [exact E|].
    exfalso. apply Hno.
    destruct Ht as [->| ->].
    + rewrite app_nil_r in Hs'. subst p.
      exists p', d', t', d, []. rewrite !app_nil_r.
      split; [|split; [exact Hd'|split; [exact Hd|exact Ht']]].
      rewrite Hs, app_nil_r, <- app_assoc. cbn [app].
      now rewrite <- app_assoc.
    + destruct Ht' as [->| ->].
      * rewrite app_nil_r in Hs'.
        destruct (group_no_newline_end p p' d' Hd' Hs').
      * assert (Hp : p = p' ++ HYPHEN :: d').
        { apply (app_inj_tail p (p' ++ HYPHEN :: d') NEWLINE NEWLINE).
          rewrite Hs', <- app_assoc. reflexivity. }
        subst p. exists p', d', [], d, [NEWLINE]. cbn [app].
        split; [|split; [exact Hd'|split; [exact Hd|now right]]].
        rewrite Hs, <- app_assoc. reflexivity.
Qed.

(** C5, as amended: [remove_ner_noise] is idempotent on a span list exactly
    when none of its labels ends in two groups of a hyphen and digits in a
    row. *)
Theorem remove_ner_noise_idempotent_iff (ent_list : list ent) :
  remove_ner_noise (remove_ner_noise ent_list) = remove_ner_noise ent_list
  <-> Forall (fun e => ~ ends_in_two_groups (ent_label e)) ent_list.
Proof.
  induction ent_list as [|e l IH]; cbn [remove_ner_noise map].
  - split; [constructor | reflexivity].
  - cbn [ent_start ent_end ent_label fst snd]. split.
    + intros H. inversion H as [[Hl Ht]]. constructor.
      * now apply sub_noise_twice_iff.
      * now apply IH.
    + intros H. inversion H as [|? ? He Hl]; subst. f_equal.
      * f_equal. now apply sub_noise_twice_iff.
      * now apply IH.
Qed.

Lemma sub_noise_hyphens (s : pystr) :
  sub_noise s = s \/ count (sub_noise s) HYPHEN = count s HYPHEN - 1.
Proof.
  induction s as [|c s IH]; [now left|]. cbn [sub_noise count].
  destruct (char_eqb c HYPHEN && at_dollar (skip_digits s)) eqn:M.
  - right. apply andb_true_iff in M as [Hc Hd]. rewrite Hc.
    destruct (skip_digits_split s) as (d & Hs & Hdig).
    rewrite Hs at 2. rewrite count_app, (count_digits_hyphen d Hdig). lia.
  - destruct IH as [IH|IH]; [left; now f_equal|].
    right. cbn [count]. lia.
Qed.

Lemma iter_fixed {A : Type} (f : A -> A) (x : A) (k : nat) :
  f x = x -> Nat.iter k f x = x.
Proof.
  intros H. unfold Nat.iter. induction k as [|k IH]; cbn; [reflexivity|].
  now rewrite IH.
Qed.

Lemma iter_shift {A : Type} (f : A -> A) (x : A) (k : nat) :
  Nat.iter (S k) f x = Nat.iter k f (f x).
Proof.
  unfold Nat.iter. induction k as [|k IH]; cbn in *; [reflexivity|].
  now rewrite IH.
Qed.

Lemma sub_noise_settles (k : nat) :
  forall s, count s HYPHEN <= Z.of_nat k ->
            sub_noise (Nat.iter k sub_noise s) = Nat.iter k sub_noise s.
Proof.
  induction k as [|k IH]; intros s Hs.
  - pose proof (count_nonneg s HYPHEN).
    change (Nat.iter 0 sub_noise s) with s. apply sub_noise_no_hyphen. lia.
  - destruct (sub_noise_hyphens s) as [Hfix|Hless].
    + now rewrite (iter_fixed _ _ _ Hfix).
    + rewrite iter_shift. apply IH. lia.
Qed.

Lemma remove_ner_noise_iter (k : nat) (ent_list : list ent) :
  Nat.iter k remove_ner_noise ent_list
  = map (fun e => (ent_start e, ent_end e,
                   Nat.iter k sub_noise (ent_label e))) ent_list.
Proof.
  induction k as [|k IH].
  - cbn. induction ent_list as [|[[a b] l] r IHr]; cbn; [reflexivity|].
    now rewrite <- IHr.
  - cbn [Nat.iter nat_rect] in *.
    change (Nat.iter k remove_ner_noise ent_list) with
      (nat_rect (fun _ => list ent) ent_list
         (fun _ => remove_ner_noise) k) in IH.
    rewrite IH. unfold remove_ner_noise. rewrite map_map. reflexivity.
Qed.

(** X10: each pass of [remove_ner_noise] that changes a label takes one
    hyphen from it; on labels of at most [k] hyphens, [k] passes give a list
    that one more pass leaves unchanged. *)
Theorem remove_ner_noise_settles (k : nat) (ent_list : list ent) :
  Forall (fun e => count (ent_label e) HYPHEN <= Z.of_nat k) ent_list ->
  remove_ner_noise (Nat.iter k remove_ner_noise ent_list)
  = Nat.iter k remove_ner_noise ent_list.
Proof.
  intros H. rewrite remove_ner_noise_iter. unfold remove_ner_noise.
  rewrite map_map. apply map_ext_in. intros e He.
  cbn [ent_start ent_end ent_label fst snd].
  rewrite Forall_forall in H. now rewrite sub_noise_settles by now apply H.
Qed.

(* ================================================================== *)
(** * The lists that deduplicate leaves as they are *)
(* ================================================================== *)

Lemma ent_lt_le (x y : ent) : ent_lt x y -> ent_le x y.
Proof.
  destruct x as [[a b] l], y as [[a' b'] l'].
  unfold ent_lt, ent_le, str_lt, by_key.
  cbn [ent_start ent_end ent_label fst snd].
  intros H. split; [apply Z.leb_le; lia|].
  intros Ha. apply Z.leb_le in Ha. split; [apply Z.leb_le; lia|].
  intros Hb. apply Z.leb_le in Hb. split; [|trivial].
  destruct H as [H|[_ [H|[_ [H _]]]]]; [lia | lia | assumption].
Qed.

Lemma ent_lt_irrefl (x : ent) : ~ ent_lt x x.
Proof.
  unfold ent_lt, str_lt. intros [H|[_ [H|[_ [_ H]]]]]; [lia | lia | congruence].
Qed.

Lemma sorted_lt_NoDup (l : list ent) : StronglySorted ent_lt l -> NoDup l.
Proof.
  induction l as [|a l IH]; intros S; constructor;
    apply StronglySorted_inv in S as [S F].
  - intros Ha. rewrite Forall_forall in F.
    exact (ent_lt_irrefl a (F a Ha)).
  - now apply IH.
Qed.

Lemma sorted_lt_le (l : list ent) :
  StronglySorted ent_lt l -> StronglySorted ent_le l.
Proof.
  induction l as [|a l IH]; intros S; constructor;
    apply StronglySorted_inv in S as [S F].
  - now apply IH.
  - eapply Forall_impl; [|exact F]. intros y. apply ent_lt_le.
Qed.

Section DeduplicateMore.

Variable set_iteration : list ent -> list ent.
Hypothesis set_iteration_enumerates : enumerates set_iteration.

Lemma deduplicate_sorted_lt (l : list ent) :
  StronglySorted ent_lt (deduplicate set_iteration l).
Proof.
  apply (sorted_weaken ent_le).
  - intros x y _ _ Hne Hle. now apply ent_le_lt.
  - now apply deduplicate_NoDup.
  - now apply deduplicate_sorted.
Qed.

Lemma deduplicate_nonempty (l : list ent) :
  l <> [] -> deduplicate set_iteration l <> [].
Proof.
  destruct l as [|e l]; [congruence|]. intros _ E.
  pose proof (proj2 (deduplicate_In set_iteration set_iteration_enumerates
                       (e :: l) e) (or_introl eq_refl)) as H.
  rewrite E in H. destruct H.
Qed.

Lemma deduplicate_nil : deduplicate set_iteration [] = [].
Proof.
  apply deduplicate_canonical;
    [assumption | constructor | constructor | intros x; reflexivity].
Qed.

(** X11: [deduplicate] returns its input as it is exactly when the input
    is in strictly ascending order of start, end and label; only then it
    does not log a change. *)
Theorem deduplicate_fixed_iff_sorted (ent_list : list ent) :
  deduplicate set_iteration ent_list = ent_list
  <-> StronglySorted ent_lt ent_list.
Proof.
  split.
  - intros H. rewrite <- H. apply deduplicate_sorted_lt.
  - intros S. apply deduplicate_canonical; try assumption.
    + now apply sorted_lt_NoDup.
    + now apply sorted_lt_le.
    + intros e. reflexivity.
Qed.

(** X12: [deduplicate] never returns more spans than it was given, and
    returns as many exactly when no span occurs twice in the input. *)
Theorem deduplicate_length (ent_list : list ent) :
  (List.length (deduplicate set_iteration ent_list)
   <= List.length ent_list)%nat
  /\ (List.length (deduplicate set_iteration ent_list)
      = List.length ent_list <-> NoDup ent_list).
Proof.
  pose proof (deduplicate_NoDup set_iteration set_iteration_enumerates
                ent_list) as N.
  pose proof (deduplicate_In set_iteration set_iteration_enumerates
                ent_list) as I.
  assert (Hle : (List.length (deduplicate set_iteration ent_list)
                 <= List.length ent_list)%nat).
  { apply NoDup_incl_length; [assumption|]. intros e. apply I. }
  split; [assumption|]. split.
  - intros E. apply (NoDup_incl_NoDup N); [lia|]. intros e. apply I.
  - intros Nl. apply Permutation_length.
    apply NoDup_Permutation; assumption.
Qed.

End DeduplicateMore.

(* ================================================================== *)
(** * main *)
(* ================================================================== *)

Lemma fix_borders_length (word_class : char -> bool) (fuel : nat)
      (text : pystr) :
  forall ent_list out,
    fix_borders word_class fuel ent_list text = Ret out ->
    List.length out = List.length ent_list.
Proof.
  unfold fix_borders. induction ent_list as [|e l IH]; intros out H; cbn in H.
  - now inversion H.
  - destruct (fix_ent word_class fuel text e) as [e'| |]; try discriminate.
    cbn [bind] in H.
    destruct (fix_borders_main word_class fuel l text) as [o| |];
      try discriminate.
    cbn [bind] in H. inversion H. cbn. f_equal. now apply IH.
Qed.

Section MainSteps.

Variable word_class : char -> bool.
Variable set_iteration : list ent -> list ent.

(** What a turn of the first loop that comes to its end has done. *)
Lemma clean_record_Done (fuel : nat) (r : record) (o : option gd) :
  clean_record word_class set_iteration fuel r = Done o ->
  exists text ent_list,
    get_text_raw r = Some text
    /\ get_entities r = Some ent_list
    /\ ((ent_list = [] /\ o = None)
        \/ (ent_list <> []
            /\ exists out,
                 fix_borders word_class fuel ent_list text = Ret out
                 /\ o = Some {| text_raw := text;
                                entities := deduplicate set_iteration out |})).
Proof.
  unfold clean_record, getitem_text_raw, getitem_entities. intros H.
  destruct (get_text_raw r) as [text|]; [|discriminate].
  destruct (get_entities r) as [ent_list|]; [|discriminate].
  cbn [run_bind] in H. exists text, ent_list.
  split; [reflexivity|]. split; [reflexivity|].
  destruct ent_list as [|e l].
  - left. inversion H. now split.
  - right. split; [discriminate|].
    destruct (fix_borders word_class fuel (e :: l) text) as [out| |];
      cbn in H; try discriminate.
    exists out. inversion H. now split.
Qed.

Lemma clean_record_kept (fuel : nat) (r : record) (o : option gd) :
  clean_record word_class set_iteration fuel r = Done o ->
  match o with
  | Some g => has_entities r = true /\ get_text_raw r = Some (text_raw g)
  | None => has_entities r = false
  end.
Proof.
  intros H. apply clean_record_Done in H
    as (text & ent_list & Ht & He & [[-> ->]|[Hne (out & _ & ->)]]).
  - unfold has_entities. now rewrite He.
  - unfold has_entities. rewrite He. destruct ent_list; [congruence|].
    now split.
Qed.

Lemma clean_records_cons (fuel : nat) (r : record) (rest : list record)
      (cleaned : list gd) :
  clean_records word_class set_iteration fuel (r :: rest) = Done cleaned ->
  exists o tail,
    clean_record word_class set_iteration fuel r = Done o
    /\ clean_records word_class set_iteration fuel rest = Done tail
    /\ cleaned = match o with Some g => g :: tail | None => tail end.
Proof.
  cbn [clean_records]. intros H.
  destruct (clean_record word_class set_iteration fuel r) as [o| | |];
    cbn [run_bind] in H; try discriminate.
  destruct (clean_records word_class set_iteration fuel rest)
    as [tail| | |]; cbn [run_bind] in H; try discriminate.
  exists o, tail. inversion H. now repeat split.
Qed.

Lemma main_Done (fuel : nat) (gd_list : list record)
      (cleaned simplified : list gd) :
  main word_class set_iteration fuel gd_list = Done (cleaned, simplified) ->
  clean_records word_class set_iteration fuel gd_list = Done cleaned
  /\ simplified = map (simplify_gd set_iteration) cleaned.
Proof.
  unfold main. intros H.
  destruct (clean_records word_class set_iteration fuel gd_list)
    as [c| | |]; cbn [run_bind] in H; try discriminate.
  inversion H. now split.
Qed.

(** X13: the first output file holds, in the order of the input, the texts
    of the records that have at least one entity; the second output file
    holds the same texts in the same order. *)
Theorem main_keeps_texts (fuel : nat) (gd_list : list record)
        (cleaned simplified : list gd) :
  main word_class set_iteration fuel gd_list = Done (cleaned, simplified) ->
  map (fun g => Some (text_raw g)) cleaned
  = map get_text_raw (filter has_entities gd_list)
  /\ map text_raw simplified = map text_raw cleaned.
Proof.
  intros H. apply main_Done in H as [Hc ->]. split.
  - revert cleaned Hc.
    induction gd_list as [|r rest IH]; intros cleaned Hc.
    + cbn in Hc. now inversion Hc.
    + apply clean_records_cons in Hc as (o & tail & Ho & Ht & ->).
      apply clean_record_kept in Ho. cbn [filter].
      destruct o as [g|].
      * destruct Ho as [-> Hg]. cbn [map]. rewrite Hg. f_equal. now apply IH.
      * rewrite Ho. now apply IH.
  - rewrite map_map. reflexivity.
Qed.

End MainSteps.

Lemma Forall2_right {A B : Type} (R : A -> B -> Prop) (l : list A)
      (l' : list B) :
  Forall2 R l l' -> Forall (fun y => exists x, R x y) l'.
Proof.
  induction 1 as [|x y l l' H _ IH]; constructor; [now exists x | exact IH].
Qed.

Section MainProperties.

Variable word_class : char -> bool.
Variable set_iteration : list ent -> list ent.
Hypothesis space_no_word : word_class SPACE = false.
Hypothesis period_no_word : word_class PERIOD = false.
Hypothesis set_iteration_enumerates : enumerates set_iteration.

Lemma clean_record_normalized (fuel : nat) (r : record) (g : gd) :
  clean_record word_class set_iteration fuel r = Done (Some g) ->
  normalized g.
Proof.
  intros H. apply clean_record_Done in H
    as (text & ent_list & _ & _ & [[_ E]|[Hne (out & Hf & E)]]);
    [discriminate|].
  inversion E; subst g; clear E. unfold normalized.
  cbn [text_raw entities].
  pose proof (fix_borders_length _ _ _ _ _ Hf) as Hlen.
  pose proof (fix_borders_corrected word_class space_no_word period_no_word
                _ _ _ _ Hf) as Hc.
  split; [|split].
  - apply deduplicate_nonempty; [assumption|].
    destruct out; [|discriminate]. destruct ent_list; [congruence|].
    discriminate.
  - now apply deduplicate_sorted_lt.
  - apply Forall2_right in Hc. rewrite Forall_forall in *.
    intros e He.
    apply (proj1 (deduplicate_In set_iteration set_iteration_enumerates
                    _ _)) in He.
    destruct (Hc e He) as (e0 & _ & Hs & Hb & _). now split.
Qed.

Lemma clean_records_normalized (fuel : nat) :
  forall gd_list cleaned,
    clean_records word_class set_iteration fuel gd_list = Done cleaned ->
    Forall normalized cleaned.
Proof.
  induction gd_list as [|r rest IH]; intros cleaned H.
  - cbn in H. inversion H. constructor.
  - apply clean_records_cons in H as (o & tail & Ho & Ht & ->).
    destruct o as [g|]; [|now apply IH].
    constructor; [eapply clean_record_normalized; eassumption | now apply IH].
Qed.

Lemma simplify_gd_normalized (g : gd) :
  normalized g -> normalized (simplify_gd set_iteration g).
Proof.
  intros (Hne & _ & Hin). unfold normalized, simplify_gd.
  cbn [text_raw entities]. split; [|split].
  - apply deduplicate_nonempty; [assumption|].
    destruct (entities g); [congruence | discriminate].
  - now apply deduplicate_sorted_lt.
  - rewrite Forall_forall in *. intros e He.
    apply (proj1 (deduplicate_In set_iteration set_iteration_enumerates
                    _ _)) in He.
    unfold remove_ner_noise in He. apply in_map_iff in He as (e0 & <- & He0).
    exact (Hin e0 He0).
Qed.

(** X14: in both output files every record has at least one entity, its
    entities are in strictly ascending order of start, end and label (hence
    without repetition), and their offsets lie inside the text. *)
Theorem main_normalized (fuel : nat) (gd_list : list record)
        (cleaned simplified : list gd) :
  main word_class set_iteration fuel gd_list = Done (cleaned, simplified) ->
  Forall normalized cleaned /\ Forall normalized simplified.
Proof.
  intros H. apply main_Done in H as [Hc ->].
  apply clean_records_normalized in Hc. split; [assumption|].
  rewrite Forall_forall in *. intros g Hg.
  apply in_map_iff in Hg as (g0 & <- & Hg0).
  apply simplify_gd_normalized. now apply Hc.
Qed.

Lemma clean_record_error (fuel : nat) (r : record) :
  (forall e, clean_record word_class set_iteration fuel r <> Failed e)
  /\ (forall k, clean_record word_class set_iteration fuel r = KeyError k ->
                lacks k r).
Proof.
  unfold clean_record, getitem_text_raw, getitem_entities, lacks.
  destruct (get_text_raw r) as [text|]; cbn [run_bind].
  2:{ split; [discriminate|]. intros k H. now inversion H. }
  destruct (get_entities r) as [ent_list|]; cbn [run_bind].
  2:{ split; [discriminate|]. intros k H. now inversion H. }
  destruct ent_list as [|e l]; [split; discriminate|].
  destruct (fix_borders word_class fuel (e :: l) text) as [out|x|] eqn:Hf;
    cbn; try (split; discriminate).
  now apply fix_borders_no_raise in Hf.
Qed.

(** X15: on records whose entities are triples [[start, end, label]],
    [main] raises neither [IndexError] nor [AssertionError], whatever the
    texts, the offsets and the labels; it raises [KeyError] only for a key
    that some record of the input lacks. *)
Theorem main_errors (fuel : nat) (gd_list : list record) :
  (forall e, main word_class set_iteration fuel gd_list <> Failed e)
  /\ (forall k, main word_class set_iteration fuel gd_list = KeyError k ->
                Exists (lacks k) gd_list).
Proof.
  assert (H : (forall e, clean_records word_class set_iteration fuel gd_list
                         <> Failed e)
              /\ (forall k, clean_records word_class set_iteration fuel
                              gd_list = KeyError k ->
                            Exists (lacks k) gd_list)).
  { induction gd_list as [|r rest [IH1 IH2]]; [split; discriminate|].
    destruct (clean_record_error fuel r) as [E1 E2].
    cbn [clean_records].
    destruct (clean_record word_class set_iteration fuel r)
      as [o|k|e|] eqn:Hr; cbn [run_bind].
    - destruct (clean_records word_class set_iteration fuel rest)
        as [tail|k|e|] eqn:Ht; cbn [run_bind].
      + split; discriminate.
      + split; [discriminate|]. intros k' H. inversion H; subst k'.
        apply Exists_cons_tl. now apply IH2.
      + now destruct (IH1 e).
      + split; discriminate.
    - split; [discriminate|]. intros k' H. inversion H; subst k'.
      apply Exists_cons_hd. now apply E2.
    - now destruct (E1 e).
    - split; discriminate. }
  destruct H as [H1 H2]. unfold main.
  destruct (clean_records word_class set_iteration fuel gd_list)
    as [c|k|e|]; cbn [run_bind].
  - split; discriminate.
  - split; [discriminate|]. intros k' H. inversion H; subst k'.
    now apply H2.
  - now destruct (H1 e).
  - split; discriminate.
Qed.

Lemma fix_borders_needs_word (fuel : nat) (text : pystr) (e : ent)
      (l out : list ent) :
  fix_borders word_class fuel (e :: l) text = Ret out ->
  has_word word_class text = true.
Proof.
  unfold fix_borders. cbn [fix_borders_main]. unfold fix_ent. intros H.
  destruct (has_word word_class text) eqn:Hw; [reflexivity|].
  rewrite (fix_char_index_no_word word_class space_no_word text
             (ent_start e) true Hw fuel) in H.
  discriminate.
Qed.

Lemma clean_records_cleanable (fuel : nat) :
  forall gd_list cleaned,
    clean_records word_class set_iteration fuel gd_list = Done cleaned ->
    Forall (cleanable word_class) gd_list.
Proof.
  induction gd_list as [|r rest IH]; intros cleaned H; [constructor|].
  apply clean_records_cons in H as (o & tail & Ho & Ht & _).
  constructor; [|eapply IH; eassumption].
  apply clean_record_Done in Ho
    as (text & ent_list & Hx & He & [[-> _]|[Hne (out & Hf & _)]]);
    unfold cleanable; rewrite Hx, He; [trivial|].
  destruct ent_list as [|e l]; [trivial|].
  eapply fix_borders_needs_word; eassumption.
Qed.

Lemma clean_records_total :
  forall gd_list,
    Forall keyed gd_list -> Forall (cleanable word_class) gd_list ->
    exists cleaned fuel0, forall fuel, (fuel0 <= fuel)%nat ->
      clean_records word_class set_iteration fuel gd_list = Done cleaned.
Proof.
  induction gd_list as [|r rest IH]; intros Hk Hc.
  - exists [], 0%nat. reflexivity.
  - inversion Hk as [|? ? [Kt Ke] Hk']; subst.
    inversion Hc as [|? ? Cr Hc']; subst.
    destruct (IH Hk' Hc') as (tail & f2 & H2).
    unfold cleanable in Cr.
    destruct (get_text_raw r) as [text|] eqn:Ht; [|congruence].
    destruct (get_entities r) as [ent_list|] eqn:He; [|congruence].
    destruct ent_list as [|e l].
    + exists tail, f2. intros fuel Hf. cbn [clean_records].
      unfold clean_record, getitem_text_raw, getitem_entities.
      rewrite Ht, He. cbn [run_bind]. now rewrite H2.
    + destruct (fix_borders_total word_class space_no_word period_no_word
                  text Cr (e :: l)) as (out & _ & f1 & H1).
      exists ({| text_raw := text;
                 entities := deduplicate set_iteration out |} :: tail),
        (Nat.max f1 f2).
      intros fuel Hf. cbn [clean_records].
      unfold clean_record, getitem_text_raw, getitem_entities.
      rewrite Ht, He. cbn [run_bind]. rewrite H1 by lia.
      cbn [of_outcome run_bind]. now rewrite H2 by lia.
Qed.

(** X16: on records that all have both keys, [main] comes to its end
    exactly when the text of every record with at least one entity holds a
    word character. *)
Theorem main_ends_iff_cleanable (gd_list : list record) :
  Forall keyed gd_list ->
  (exists out fuel0, forall fuel, (fuel0 <= fuel)%nat ->
     main word_class set_iteration fuel gd_list = Done out)
  <-> Forall (cleanable word_class) gd_list.
Proof.
  intros Hk. split.
  - intros (out & fuel0 & H). specialize (H fuel0 (Nat.le_refl _)).
    destruct out as [cleaned simplified].
    apply main_Done in H as [H _].
    eapply clean_records_cleanable; eassumption.
  - intros Hc.
    destruct (clean_records_total gd_list Hk Hc) as (cleaned & fuel0 & H).
    exists (cleaned, map (simplify_gd set_iteration) cleaned), fuel0.
    intros fuel Hf. unfold main. now rewrite H.
Qed.

(** X17: the two variants of the program agree up to the records without
    entities: when the loop of [src/src/clean.py] over a file comes to its
    end, [main] of [src/clean.py] writes the records of its result that have
    an entity, and their simplified forms. *)
Theorem main_is_clean_file_filtered (fuel : nat) (gd_list : list record)
        (gd_list_new : list gd) :
  clean_file word_class set_iteration fuel gd_list = Done gd_list_new ->
  main word_class set_iteration fuel gd_list
  = Done (filter nonempty gd_list_new,
          map (simplify_gd set_iteration) (filter nonempty gd_list_new)).
Proof.
  intros H.
  assert (Hc : clean_records word_class set_iteration fuel gd_list
               = Done (filter nonempty gd_list_new)).
  { revert gd_list_new H.
    induction gd_list as [|r rest IH]; intros out H; cbn in H.
    - now inversion H.
    - cbn [clean_records]. unfold clean_record.
      destruct (getitem_text_raw r) as [text| | |]; cbn [run_bind] in *;
        try discriminate.
      destruct (getitem_entities r) as [ent_list| | |]; cbn [run_bind] in *;
        try discriminate.
      destruct (fix_borders word_class fuel ent_list text)
        as [o| |] eqn:Hf; cbn [of_outcome run_bind] in H; try discriminate.
      destruct (clean_file word_class set_iteration fuel rest)
        as [tail| | |]; cbn [run_bind] in H; try discriminate.
      inversion H; subst out; clear H.
      rewrite (IH tail eq_refl).
      pose proof (fix_borders_length _ _ _ _ _ Hf) as Hlen.
      destruct ent_list as [|e l].
      + destruct o; [|discriminate]. cbn [run_bind filter].
        unfold nonempty. cbn [entities].
        now rewrite (deduplicate_nil set_iteration set_iteration_enumerates).
      + cbn [of_outcome run_bind filter].
        unfold nonempty at 1. cbn [entities].
        destruct (deduplicate set_iteration o) eqn:Hd; [|reflexivity].
        exfalso.
        apply (deduplicate_nonempty set_iteration set_iteration_enumerates o);
          [|assumption].
        destruct o; [discriminate | discriminate]. }
  unfold main. now rewrite Hc.
Qed.

End MainProperties.

Section FolderProperties.

Variable word_class : char -> bool.
Variable set_iteration : list ent -> list ent.

(** X18: the loop of [src/src/clean.py] over a file drops no record: the
    output has the texts of the input, one record for each record of the
    input, in the same order. *)
Theorem clean_file_keeps_records (fuel : nat) :
  forall gd_list gd_list_new,
    clean_file word_class set_iteration fuel gd_list = Done gd_list_new ->
    map (fun g => Some (text_raw g)) gd_list_new = map get_text_raw gd_list.
Proof.
  induction gd_list as [|r rest IH]; intros out H; cbn in H.
  - now inversion H.
  - unfold getitem_text_raw, getitem_entities in H.
    destruct (get_text_raw r) as [text|] eqn:Ht; cbn [run_bind] in H;
      try discriminate.
    destruct (get_entities r) as [ent_list|]; cbn [run_bind] in H;
      try discriminate.
    destruct (fix_borders word_class fuel ent_list text) as [o| |];
      cbn [of_outcome run_bind] in H; try discriminate.
    destruct (clean_file word_class set_iteration fuel rest)
      as [tail| | |]; cbn [run_bind] in H; try discriminate.
    inversion H; subst out. cbn [map text_raw]. rewrite Ht.
    f_equal. now apply IH.
Qed.

(** X19: [main] of [src/src/clean.py] writes the files in the order of the
    input, each under the name of its input file and with the result of the
    loop over that file; it stops at the first file whose loop does not
    come to its end, with the error or the unfinished run of that loop, and
    ends well exactly when every file was written. *)
Theorem main_folder_writes_prefix (fuel : nat) :
  forall files written status,
    main_folder word_class set_iteration fuel files = (written, status) ->
    Forall2 (fun f w =>
               fst w = fst f
               /\ clean_file word_class set_iteration fuel (snd f)
                  = Done (snd w))
            (firstn (List.length written) files) written
    /\ (status = Done tt <-> List.length written = List.length files)
    /\ (forall f, nth_error files (List.length written) = Some f ->
        (forall gd_list_new,
           clean_file word_class set_iteration fuel (snd f)
           <> Done gd_list_new)
        /\ status
           = (_ <~ clean_file word_class set_iteration fuel (snd f) ;;
              Done tt)).
Proof.
  induction files as [|[name gd_list] rest IH]; intros written status H;
    cbn [main_folder] in H.
  - injection H as <- <-. cbn. split; [constructor|].
    split; [tauto | discriminate].
  - destruct (clean_file word_class set_iteration fuel gd_list)
      as [out|k|e|] eqn:Hf.
    + destruct (main_folder word_class set_iteration fuel rest)
        as [w s] eqn:Hr.
      injection H as <- <-.
      destruct (IH w s eq_refl) as (IH1 & IH2 & IH3).
      cbn [List.length firstn nth_error]. split; [|split].
      * constructor; [now split | exact IH1].
      * rewrite IH2. lia.
      * exact IH3.
    + injection H as <- <-. cbn [List.length firstn nth_error].
      split; [constructor|]. split; [split; [discriminate | discriminate]|].
      intros f E. injection E as <-. cbn [snd]. rewrite Hf.
      split; [discriminate | reflexivity].
    + injection H as <- <-. cbn [List.length firstn nth_error].
      split; [constructor|]. split; [split; [discriminate | discriminate]|].
      intros f E. injection E as <-. cbn [snd]. rewrite Hf.
      split; [discriminate | reflexivity].
    + injection H as <- <-. cbn [List.length firstn nth_error].
      split; [constructor|]. split; [split; [discriminate | discriminate]|].
      intros f E. injection E as <-. cbn [snd]. rewrite Hf.
      split; [discriminate | reflexivity].
Qed.

End FolderProperties.

(* ================================================================== *)
(** * The simplified records *)
(* ================================================================== *)

(** X20: a simplified record has the text of the cleaned record it comes
    from and, as entities, the distinct entities of that record once their
    labels are stripped: never more entities than the cleaned record. *)
Theorem main_simplified_entities (word_class : char -> bool)
        (set_iteration : list ent -> list ent) (fuel : nat)
        (gd_list : list record) (cleaned simplified : list gd) :
  enumerates set_iteration ->
  main word_class set_iteration fuel gd_list = Done (cleaned, simplified) ->
  Forall2 (fun g s =>
             text_raw s = text_raw g
             /\ (List.length (entities s) <= List.length (entities g))%nat
             /\ forall e, In e (entities s)
                          <-> In e (remove_ner_noise (entities g)))
          cleaned simplified.
Proof.
  intros Hen H. apply main_Done in H as [_ ->].
  induction cleaned as [|g l IH]; cbn [map]; constructor; [|exact IH].
  unfold simplify_gd. cbn [text_raw entities].
  split; [reflexivity|]. split.
  - replace (List.length (entities g))
      with (List.length (remove_ner_noise (entities g)))
      by (unfold remove_ner_noise; apply length_map).
    apply NoDup_incl_length; [now apply deduplicate_NoDup|].
    intros e. now apply deduplicate_In.
  - intros e. now apply deduplicate_In.
Qed.

(* ================================================================== *)
(** * The abbreviation rule on the text *)
(* ================================================================== *)

Lemma slice_from_pad (text : pystr) (i : Z) :
  0 <= i <= len text ->
  slice_from (pad text) (i + 1) = slice_from text i ++ [SPACE].
Proof.
  intros Hi. unfold slice_from.
  rewrite !clip_inside by (rewrite ?len_pad; lia).
  replace (Z.to_nat (i + 1)) with (S (Z.to_nat i)) by lia.
  unfold pad. cbn [skipn]. rewrite skipn_app.
  replace (Z.to_nat i - List.length text)%nat with 0%nat
    by (unfold len in Hi; lia).
  reflexivity.
Qed.

Lemma slice_from_head (s : pystr) (i : Z) (c : char) (r : pystr) :
  0 <= i <= len s -> slice_from s i = c :: r -> char_at s i = c.
Proof.
  intros Hi H. unfold slice_from in H. rewrite clip_inside in H by lia.
  unfold char_at.
  replace (Z.to_nat i) with (Z.to_nat i + 0)%nat by lia.
  rewrite <- nth_skipn, H. reflexivity.
Qed.

Lemma skip_spaces_to_end (rest : pystr) :
  at_dollar (skip_spaces (rest ++ [SPACE]))
  = forallb (fun c => char_eqb c SPACE) rest.
Proof.
  induction rest as [|c rest IH]; [reflexivity|].
  cbn [app skip_spaces forallb].
  destruct (char_eqb c SPACE); [exact IH|]. cbn [andb at_dollar].
  now destruct rest.
Qed.

(** X21: at an END border that is a period, the period stays out of the
    span exactly when only spaces follow it up to the end of the text;
    otherwise the end moves past the period. *)
Theorem fix_char_index_at_period (word_class : char -> bool) (fuel : nat)
        (text : pystr) (i : Z) (rest : pystr) :
  (0 < fuel)%nat ->
  probe word_class (pad text) false (i + 1) = Ret true ->
  slice_from text i = PERIOD :: rest ->
  fix_char_index word_class fuel text i false
  = Ret (if forallb (fun c => char_eqb c SPACE) rest then i else i + 1).
Proof.
  intros Hfuel Hp Hs. rewrite probe_border in Hp.
  assert (B : border word_class (pad text) false (i + 1) = true)
    by congruence.
  assert (Hi : 0 <= i <= len text).
  { unfold border in B. apply andb_true_iff in B as [G _].
    apply andb_true_iff in G as [G1 G2].
    apply Z.leb_le in G1. apply Z.ltb_lt in G2.
    rewrite len_pad in G2. lia. }
  destruct fuel as [|fuel]; [lia|].
  assert (S1 : search word_class (S fuel) (pad text) false (i + 1) 1
               = Ret (i + 1))
    by (now rewrite search_step, B).
  rewrite (fix_char_index_found _ _ _ _ _ _ S1).
  pose proof (slice_from_pad text i Hi) as Hpad. rewrite Hs in Hpad.
  assert (Hc : char_at (pad text) (i + 1) = PERIOD).
  { apply (slice_from_head _ _ _ (rest ++ [SPACE]));
      [rewrite len_pad; lia | exact Hpad]. }
  unfold abbreviation. rewrite Hc, Hpad. cbn [match_period_end app].
  change (char_eqb PERIOD PERIOD) with true. cbn [andb].
  rewrite skip_spaces_to_end.
  destruct (forallb (fun c => char_eqb c SPACE) rest); cbn [negb];
    f_equal; lia.
Qed.

(* ================================================================== *)
(** * fix_char_index keeps the order of the indices *)
(* ================================================================== *)

(** X22: in either mode [fix_char_index] is monotone: of two indices the
    greater one is never moved to a smaller result; in particular the result
    does not depend on the fuel that was enough to reach it. *)
Theorem fix_char_index_monotone (word_class : char -> bool)
        (fuel fuel' : nat) (text : pystr) (i i' : Z) (i_is_start : bool)
        (r r' : Z) :
  fix_char_index word_class fuel text i i_is_start = Ret r ->
  fix_char_index word_class fuel' text i' i_is_start = Ret r' ->
  i <= i' ->
  r <= r'.
Proof.
  intros H H' Hle.
  apply fix_char_index_inv in H as (p & Hs & B & ->).
  apply fix_char_index_inv in H' as (p' & Hs' & B' & ->).
  assert (Hst : (if i_is_start then -1 else 1) = -1
                \/ (if i_is_start then -1 else 1) = 1)
    by (destruct i_is_start; auto).
  assert (Hp : p <= p').
  { destruct (Z.eq_dec i i') as [<-|Hne].
    - destruct (Nat.le_ge_cases fuel fuel') as [Hf|Hf].
      + rewrite (search_mono _ _ _ _ _ _ _ _ Hf Hs) in Hs'.
        inversion Hs'. lia.
      + rewrite (search_mono _ _ _ _ _ _ _ _ Hf Hs') in Hs.
        inversion Hs. lia.
    - destruct (Z_lt_le_dec (Z.abs (p' - (i + 1))) (Z.abs (p - (i + 1))))
        as [Hn|Hn].
      { rewrite (search_nearest _ _ _ _ _ _ _ _ Hst Hs Hn) in B'.
        discriminate. }
      destruct (Z_lt_le_dec (Z.abs (p - (i' + 1))) (Z.abs (p' - (i' + 1))))
        as [Hn'|Hn'].
      { rewrite (search_nearest _ _ _ _ _ _ _ _ Hst Hs' Hn') in B.
        discriminate. }
      lia. }
  destruct (Z.eq_dec p p') as [<-|Hne]; [lia|].
  destruct (abbreviation (pad text) p), (abbreviation (pad text) p'); lia.
Qed.

(* ================================================================== *)
(** * Further concrete runs *)
(* ================================================================== *)

(** X1, on the text ["ab   cd"] and the index 3 in START mode. *)
Lemma fix_char_index_nearest_border_witness :
  exists b period,
    probe ascii_class (pad (py "ab   cd")) true (b + 1) = Ret true
    /\ abbreviation_period (pad (py "ab   cd")) (b + 1) = Ret period
    /\ 5 = (if period then b + 1 else b)
    /\ forall j, Z.abs (j - 3) < Z.abs (b - 3) ->
         probe ascii_class (pad (py "ab   cd")) true (j + 1) = Ret false.
Proof.
  apply (fix_char_index_nearest_border ascii_class 5 (py "ab   cd") 3 true 5).
  reflexivity.
Defined.

(** X2, on the same run. *)
Lemma fix_char_index_bias_witness :
  exists b,
    probe ascii_class (pad (py "ab   cd")) true (b + 1) = Ret true
    /\ (5 = b \/ 5 = b + 1)
    /\ forall j, Z.abs (j - 3) = Z.abs (b - 3) ->
         j < b ->
         probe ascii_class (pad (py "ab   cd")) true (j + 1) = Ret false.
Proof.
  apply (fix_char_index_bias ascii_class 5 (py "ab   cd") 3 true 5).
  reflexivity.
Defined.

(** X3, on the text ["z.B. gut"] and the index 1. *)
Lemma fix_char_index_end_after_word_witness :
  1 <= 2 <= len (py "z.B. gut")
  /\ exists c,
       index (py "z.B. gut") (2 - 1) = Ret c
       /\ (is_char ascii_class c = true
           \/ (c = PERIOD /\ 2 <= 2
               /\ exists c', index (py "z.B. gut") (2 - 2) = Ret c'
                             /\ is_char ascii_class c' = true)).
Proof.
  apply (fix_char_index_end_after_word ascii_class ascii_class_space
           ascii_class_period 1 (py "z.B. gut") 1 2).
  reflexivity.
Defined.

(** X4, on the text ["ab"]. *)
Lemma fix_char_index_returns_iff_word_witness :
  (exists fuel r, fix_char_index ascii_class fuel (py "ab") 0 true = Ret r)
  <-> has_word ascii_class (py "ab") = true.
Proof.
  apply (fix_char_index_returns_iff_word ascii_class ascii_class_space
           (py "ab") 0 true).
Defined.


(** X8, on the label ["PER-1337"]. *)
Lemma sub_noise_removes_group_witness :
  sub_noise (py "PER" ++ HYPHEN :: py "1337" ++ []) = py "PER" ++ []
  /\ remove_ner_noise [(0, 3, py "PER" ++ HYPHEN :: py "1337" ++ [])]
     = [(0, 3, py "PER" ++ [])].
Proof.
  apply (sub_noise_removes_group (py "PER") (py "1337") [] 0 3).
  - reflexivity.
  - left. reflexivity.
Defined.

(** X10, on the label ["PER-1-2"] and two passes. *)
Lemma remove_ner_noise_settles_witness :
  remove_ner_noise (Nat.iter 2 remove_ner_noise [(0, 3, py "PER-1-2")])
  = Nat.iter 2 remove_ner_noise [(0, 3, py "PER-1-2")].
Proof.
  apply (remove_ner_noise_settles 2 [(0, 3, py "PER-1-2")]).
  constructor; [cbn; lia | constructor].
Defined.

(** X11, with a set that yields its elements last seen first. *)
Lemma deduplicate_fixed_iff_sorted_witness :
  deduplicate reversed_set [(0, 3, py "A"); (5, 8, py "B")]
  = [(0, 3, py "A"); (5, 8, py "B")]
  <-> StronglySorted ent_lt [(0, 3, py "A"); (5, 8, py "B")].
Proof.
  apply (deduplicate_fixed_iff_sorted reversed_set reversed_set_enumerates
           [(0, 3, py "A"); (5, 8, py "B")]).
Defined.

(** X12, with the same set. *)
Lemma deduplicate_length_witness :
  Nat.le (List.length
            (deduplicate reversed_set [(0, 3, py "A"); (0, 3, py "A")]))
         (List.length [(0, 3, py "A"); (0, 3, py "A")])
  /\ (List.length (deduplicate reversed_set [(0, 3, py "A"); (0, 3, py "A")])
      = List.length [(0, 3, py "A"); (0, 3, py "A")]
      <-> NoDup [(0, 3, py "A"); (0, 3, py "A")]).
Proof.
  apply (deduplicate_length reversed_set reversed_set_enumerates
           [(0, 3, py "A"); (0, 3, py "A")]).
Defined.

(** X13, on the sample input. *)
Lemma main_keeps_texts_witness :
  map (fun g => Some (text_raw g)) sample_cleaned
  = map get_text_raw (filter has_entities sample_records)
  /\ map text_raw sample_simplified = map text_raw sample_cleaned.
Proof.
  apply (main_keeps_texts ascii_class reversed_set 20 sample_records
           sample_cleaned sample_simplified).
  reflexivity.
Defined.

(** X14, on the sample input. *)
Lemma main_normalized_witness :
  Forall normalized sample_cleaned /\ Forall normalized sample_simplified.
Proof.
  apply (main_normalized ascii_class reversed_set ascii_class_space
           ascii_class_period reversed_set_enumerates 20 sample_records
           sample_cleaned sample_simplified).
  reflexivity.
Defined.

(** X15, on the sample input. *)
Lemma main_errors_witness :
  (forall e, main ascii_class reversed_set 20 sample_records <> Failed e)
  /\ (forall k, main ascii_class reversed_set 20 sample_records = KeyError k ->
                Exists (lacks k) sample_records).
Proof.
  apply (main_errors ascii_class reversed_set ascii_class_space
           ascii_class_period 20 sample_records).
Defined.

(** X16, on the sample input. *)
Lemma main_ends_iff_cleanable_witness :
  (exists out fuel0, forall fuel, (fuel0 <= fuel)%nat ->
     main ascii_class reversed_set fuel sample_records = Done out)
  <-> Forall (cleanable ascii_class) sample_records.
Proof.
  apply (main_ends_iff_cleanable ascii_class reversed_set ascii_class_space
           ascii_class_period sample_records).
  repeat constructor; discriminate.
Defined.

(** X17, on the sample input. *)
Lemma main_is_clean_file_filtered_witness :
  main ascii_class reversed_set 20 sample_records
  = Done (filter nonempty sample_file,
          map (simplify_gd reversed_set) (filter nonempty sample_file)).
Proof.
  apply (main_is_clean_file_filtered ascii_class reversed_set
           reversed_set_enumerates 20 sample_records sample_file).
  reflexivity.
Defined.

(** X18, on the sample input. *)
Lemma clean_file_keeps_records_witness :
  map (fun g => Some (text_raw g)) sample_file
  = map get_text_raw sample_records.
Proof.
  apply (clean_file_keeps_records ascii_class reversed_set 20 sample_records
           sample_file).
  reflexivity.
Defined.

(** X19, on a folder of two files, the second of which holds a record
    without keys. *)
Lemma main_folder_writes_prefix_witness :
  Forall2 (fun f w =>
             fst w = fst f
             /\ clean_file ascii_class reversed_set 20 (snd f) = Done (snd w))
          (firstn (List.length [("a.json"%string, sample_file)])
             [("a.json"%string, sample_records);
              ("b.json"%string,
               [ {| get_text_raw := None; get_entities := None |} ])])
          [("a.json"%string, sample_file)]
  /\ (KeyError Key_text_raw = Done tt
      <-> List.length [("a.json"%string, sample_file)]
          = List.length [("a.json"%string, sample_records);
                         ("b.json"%string,
                          [ {| get_text_raw := None;
                               get_entities := None |} ])])
  /\ (forall f,
        nth_error [("a.json"%string, sample_records);
                   ("b.json"%string,
                    [ {| get_text_raw := None; get_entities := None |} ])]
          (List.length [("a.json"%string, sample_file)]) = Some f ->
        (forall gd_list_new,
           clean_file ascii_class reversed_set 20 (snd f)
           <> Done gd_list_new)
        /\ KeyError Key_text_raw
           = (_ <~ clean_file ascii_class reversed_set 20 (snd f) ;;
              Done tt)).
Proof.
  apply (main_folder_writes_prefix ascii_class reversed_set 20
           [("a.json"%string, sample_records);
            ("b.json"%string,
             [ {| get_text_raw := None; get_entities := None |} ])]
           [("a.json"%string, sample_file)] (KeyError Key_text_raw)).
  reflexivity.
Defined.

(** X20, on the sample input. *)
Lemma main_simplified_entities_witness :
  Forall2 (fun g s =>
             text_raw s = text_raw g
             /\ (List.length (entities s) <= List.length (entities g))%nat
             /\ forall e, In e (entities s)
                          <-> In e (remove_ner_noise (entities g)))
          sample_cleaned sample_simplified.
Proof.
  apply (main_simplified_entities ascii_class reversed_set 20 sample_records
           sample_cleaned sample_simplified reversed_set_enumerates).
  reflexivity.
Defined.

(** X21, on the text ["z.B. gut"] and the index 1. *)
Lemma fix_char_index_at_period_witness :
  fix_char_index ascii_class 1 (py "z.B. gut") 1 false
  = Ret (if forallb (fun c => char_eqb c SPACE) (py "B. gut")
         then 1 else 1 + 1).
Proof.
  apply (fix_char_index_at_period ascii_class 1 (py "z.B. gut") 1
           (py "B. gut")).
  - lia.
  - reflexivity.
  - reflexivity.
Defined.

(** X22, on the text ["ab   cd"] and the indices 2 and 3 in START mode. *)
Lemma fix_char_index_monotone_witness :
  fix_char_index ascii_class 5 (py "ab   cd") 2 true = Ret 0
  /\ fix_char_index ascii_class 5 (py "ab   cd") 3 true = Ret 5
  /\ 0 <= 5.
Proof.
  split; [reflexivity|]. split; [reflexivity|].
  apply (fix_char_index_monotone ascii_class 5 5 (py "ab   cd") 2 3 true 0 5).
  - reflexivity.
  - reflexivity.
  - lia.
Defined.

(* ================================================================== *)
(** * Where fix_borders moves the offsets *)
(* ================================================================== *)

Section Relocated.

Variable word_class : char -> bool.
Hypothesis space_no_word : word_class SPACE = false.
Hypothesis period_no_word : word_class PERIOD = false.

Lemma fix_char_index_nearest (fuel : nat) (text : pystr) (i : Z)
      (i_is_start : bool) (r : Z) :
  fix_char_index word_class fuel text i i_is_start = Ret r ->
  exists b,
    nearest_border word_class text i_is_start i b
    /\ (r = b \/ (i_is_start = false /\ r = b + 1)).
Proof.
  intros H. apply fix_char_index_inv in H as (p & Hs & B & ->).
  exists (p - 1). split.
  - unfold nearest_border. replace (p - 1 + 1) with p by lia.
    split; [now rewrite probe_border, B|].
    intros j Hj. rewrite probe_border. f_equal.
    apply (search_nearest word_class (pad text) i_is_start
             (if i_is_start then -1 else 1) (i + 1) fuel p (j + 1));
      [destruct i_is_start; auto | assumption | lia].
  - destruct i_is_start.
    + apply (start_border_result word_class space_no_word period_no_word)
        in B as (-> & _). now left.
    + destruct (abbreviation (pad text) p); [right; split; [reflexivity|lia]|].
      now left.
Qed.

Lemma fix_ent_relocated (fuel : nat) (text : pystr) (e e' : ent) :
  fix_ent word_class fuel text e = Ret e' ->
  relocated word_class text e e'.
Proof.
  intros H.
  pose proof (fix_ent_corrected word_class space_no_word period_no_word
                fuel text e e' H) as (Hl & Hs & He & _).
  unfold relocated. split; [exact Hl|]. split; [exact Hs|].
  split; [exact He|].
  unfold fix_ent in H.
  destruct (fix_char_index word_class fuel text (ent_start e) true)
    as [i_a| |] eqn:Ha; try discriminate.
  destruct (fix_char_index word_class fuel text (ent_end e) false)
    as [i_b| |] eqn:Hb; try discriminate.
  cbn [bind] in H.
  pose proof (fix_char_index_start_spec word_class space_no_word
                period_no_word _ _ _ _ Ha) as [Ra _].
  pose proof (fix_char_index_end_spec word_class space_no_word
                _ _ _ _ Hb) as [Rb _].
  destruct (fix_parenthesis_inside text i_a i_b (ent_label e) Ra Rb)
    as (e1 & Hp & Hcases).
  rewrite Hp in H. cbn [bind] in H.
  destruct (assert_no_space text e1); try discriminate.
  cbn [bind] in H. injection H as <-.
  apply fix_char_index_nearest in Ha as (b_a & Na & Ea).
  apply fix_char_index_nearest in Hb as (b_b & Nb & Eb).
  exists b_a, b_b. split; [exact Na|]. split; [exact Nb|].
  assert (Ea' : i_a = b_a) by (destruct Ea as [E|[E _]]; [exact E|discriminate]).
  assert (Eb' : b_b <= i_b <= b_b + 1) by (destruct Eb as [E|[_ E]]; lia).
  destruct Hcases as [->|[(-> & _)|(-> & _)]];
    cbn [ent_start ent_end fst snd]; split; lia.
Qed.

Lemma fix_borders_relocated (fuel : nat) (text : pystr) :
  forall ent_list ent_list_new,
    fix_borders word_class fuel ent_list text = Ret ent_list_new ->
    Forall2 (relocated word_class text) ent_list ent_list_new.
Proof.
  unfold fix_borders.
  induction ent_list as [|e rest IH]; intros out H; cbn in H.
  - injection H as <-. constructor.
  - destruct (fix_ent word_class fuel text e) as [e'| |] eqn:He;
      try discriminate.
    cbn [bind] in H.
    destruct (fix_borders_main word_class fuel rest text) as [out'| |];
      try discriminate.
    cbn [bind] in H. injection H as <-.
    constructor; [eapply fix_ent_relocated; eassumption | now apply IH].
Qed.

(** C7, as amended: no span makes [fix_borders] fail, whatever its
    offsets: no error is ever raised, and for every text that contains at
    least one word character and every list of spans, malformed ones
    included, [fix_borders] returns one span for each input span, with the
    label kept and both offsets moved to borders inside the text: the start
    to a nearest START border (or onto a ["("] before it), the end to a
    nearest END border (or past a period or a [")"] after it). *)
Theorem fix_borders_relocates_any_span (text : pystr)
        (ent_list : list ent) :
  has_word word_class text = true ->
  (forall fuel e, fix_borders word_class fuel ent_list text <> Raise e)
  /\ exists ent_list_new,
       (exists fuel0, forall fuel, (fuel0 <= fuel)%nat ->
          fix_borders word_class fuel ent_list text = Ret ent_list_new)
       /\ List.length ent_list_new = List.length ent_list
       /\ map ent_label ent_list_new = map ent_label ent_list
       /\ Forall2 (relocated word_class text) ent_list ent_list_new.
Proof.
  intros Hw. split.
  - intros fuel e. now apply fix_borders_no_raise.
  - destruct (fix_borders_total word_class space_no_word period_no_word
                text Hw ent_list) as (out & Hc & fuel0 & Hrun).
    exists out. split; [now exists fuel0|].
    pose proof (fix_borders_relocated fuel0 text ent_list out
                  (Hrun fuel0 (Nat.le_refl _))) as Hr.
    split; [|split; [|exact Hr]].
    + symmetry. eapply Forall2_length. exact Hr.
    + clear Hrun Hc. induction Hr as [|e e' l l' H _ IH]; [reflexivity|].
      destruct H as (Hl & _). cbn. now rewrite Hl, IH.
Qed.

End Relocated.

(* ================================================================== *)
(** * Concrete runs of fix_parenthesis and of fix_borders *)
(* ================================================================== *)



(** C7, as amended, on the text ["ab"] and the span [(7, -3)]. *)
Lemma fix_borders_relocates_any_span_witness :
  (forall fuel e,
     fix_borders ascii_class fuel [(7, -3, py "X")] (py "ab") <> Raise e)
  /\ exists ent_list_new,
       (exists fuel0, forall fuel, (fuel0 <= fuel)%nat ->
          fix_borders ascii_class fuel [(7, -3, py "X")] (py "ab")
          = Ret ent_list_new)
       /\ List.length ent_list_new = List.length [(7, -3, py "X")]
       /\ map ent_label ent_list_new = map ent_label [(7, -3, py "X")]
       /\ Forall2 (relocated ascii_class (py "ab")) [(7, -3, py "X")]
            ent_list_new.
Proof.
  apply (fix_borders_relocates_any_span ascii_class ascii_class_space
           ascii_class_period (py "ab") [(7, -3, py "X")]).
  reflexivity.
Defined.

(** Labels with several hyphens that one pass settles. *)
Example remove_ner_noise_one_pass_settles :
  remove_ner_noise [(0, 3, py "B-PER-1")] = [(0, 3, py "B-PER")]
  /\ remove_ner_noise (remove_ner_noise [(0, 3, py "B-PER-1")])
     = remove_ner_noise [(0, 3, py "B-PER-1")].
Proof. split; reflexivity. Qed.
